(** * OpenFGA: the Check entry point and the bounded-concurrency tuple reader

    A shallow embedding of

    - [pkg/server] ([NewServerWithOpts], [Server.Check],
      [Server.resolveTypesystem]), and
    - [pkg/storage/storagewrappers/boundedconcurrency.go]
      ([BoundedConcurrencyTupleReader] and its [waitForLimiter]),

    together with the properties the design document states about them.

    The server functions are sequential: they are embedded as functions of
    the values their collaborators return.  The bounded reader is shared by
    the goroutines of one request: it is embedded as a transition system
    whose state holds the limiter channel, the goroutines' program points
    and the contexts, and whose transitions are the atomic actions of the
    method bodies. *)

From stdpp Require Import gmap strings list fin_maps sorting.
From Stdlib Require Import ZArith.

Local Open Scope string_scope.
Local Open Scope nat_scope.
Local Open Scope list_scope.

(* ===================================================================== *)
(** ** Go errors *)
(* ===================================================================== *)

Module GoErrors.

(** The package-level error values the server code compares against with
    [errors.Is].  Any other error value is an [ErrOther]. *)
Inductive sentinel : Type :=
| ErrResolutionDepthExceeded      (* graph.ErrResolutionDepthExceeded *)
| ErrCycleDetected                (* graph.ErrCycleDetected *)
| ErrEvaluationFailed             (* condition.ErrEvaluationFailed *)
| ErrModelNotFound                (* typesystem.ErrModelNotFound *)
| ErrInvalidModel                 (* typesystem.ErrInvalidModel *)
| Canceled                        (* context.Canceled *)
| DeadlineExceeded                (* context.DeadlineExceeded *)
| ErrOther (msg : string).

#[global] Instance sentinel_eq_dec : EqDecision sentinel.
Proof. solve_decision. Defined.

(** A non-nil [error]: a package-level value, a value wrapped with
    [fmt.Errorf("...%w", e)], or two errors joined ([errors.Join], or
    [fmt.Errorf] with two [%w]). *)
Inductive goerror : Type :=
| ErrNew (s : sentinel)
| ErrWrap (msg : string) (inner : goerror)
| ErrJoin (e1 e2 : goerror).

(** [errors.Is(err, target)]: a depth-first search of the tree of
    wrapped errors for [target]. *)
Fixpoint errors_Is (err : goerror) (target : sentinel) : bool :=
  match err with
  | ErrNew s => bool_decide (s = target)
  | ErrWrap _ inner => errors_Is inner target
  | ErrJoin e1 e2 => errors_Is e1 target || errors_Is e2 target
  end.

End GoErrors.
Export GoErrors.

(* ===================================================================== *)
(** ** Package serverErrors *)
(* ===================================================================== *)

(** Modelled from the spec: package [pkg/server/errors] is not embedded
    here; section 7 of the design document names the errors the
    server surfaces.  Each value and each constructor function of that
    package which [pkg/server] calls is kept as a symbol applied to its
    arguments, together with [status.Error(codes.InvalidArgument, msg)]. *)
Inductive server_error : Type :=
| StatusInvalidArgument (msg : string)
| AuthorizationModelResolutionTooComplex
| ValidationError (cause : goerror)
| HandleTupleValidateError (cause : goerror)
| HandleError (public : string) (cause : goerror)
| LatestAuthorizationModelNotFound (store : string)
| AuthorizationModelNotFound (modelID : string).

(* ===================================================================== *)
(** ** Requests and responses *)
(* ===================================================================== *)

(** [openfgav1.TupleKey].  [tuple.ConvertCheckRequestTupleKeyToTupleKey]
    copies user, relation and object of a [CheckRequestTupleKey] into a
    [TupleKey]; both are this record, and the conversion is the identity. *)
Record TupleKey : Type := mkTupleKey {
  tk_object : string;
  tk_relation : string;
  tk_user : string
}.

Definition ConvertCheckRequestTupleKeyToTupleKey (tk : TupleKey) : TupleKey := tk.

(** The request context ([structpb.Struct]) is passed along unread. *)
Definition Struct : Type := list (string * string).

Record CheckRequest : Type := mkCheckRequest {
  req_StoreId : string;
  req_TupleKey : TupleKey;
  req_ContextualTuples : list TupleKey;
  req_AuthorizationModelId : string;
  req_Context : Struct
}.

Record CheckResponse : Type := mkCheckResponse {
  resp_Allowed : bool
}.

(** [graph.ResolutionMetadata], [graph.ResolveCheckRequest]. *)
Record ResolutionMetadata : Type := mkResolutionMetadata {
  Depth : N;
  DatastoreQueryCount : N
}.

Record ResolveCheckRequest : Type := mkResolveCheckRequest {
  rc_StoreID : string;
  rc_AuthorizationModelID : string;
  rc_TupleKey : TupleKey;
  rc_ContextualTuples : list TupleKey;
  rc_Context : Struct;
  rc_ResolutionMetadata : ResolutionMetadata
}.

(** Modelled from the spec: [graph.ResolveCheckResponse] is declared in
    package [internal/graph]; section 3 of the design document gives it
    as [{allowed, metadata: {datastoreQueryCount, dispatchCount,
    cycleDetected}}]. *)
Record ResolveCheckResponseMetadata : Type := mkResponseMetadata {
  md_DatastoreQueryCount : N;
  md_DispatchCount : N;
  md_CycleDetected : bool
}.

Record ResolveCheckResponse : Type := mkResolveCheckResponse {
  Allowed : bool;
  rr_ResolutionMetadata : ResolveCheckResponseMetadata
}.

(** [typesystem.TypeSystem], as far as the server reads it. *)
Record TypeSystem : Type := mkTypeSystem {
  GetAuthorizationModelID : string
}.

(* ===================================================================== *)
(** ** The resolver objects and their delegates *)
(* ===================================================================== *)

(** Resolvers are heap objects that point at one another: [SetDelegate]
    mutates an object that other objects already reference.  The heap is a
    finite map from addresses to objects. *)
Abbreviation ref := nat.

(** Modelled from the spec: package [internal/graph] is not embedded
    here.  Section 2 of the design document names the three
    resolvers, section 9 their capability [{ResolveCheck, Close,
    SetDelegate}]; [SetDelegate] stores its argument as the resolver's
    delegate. *)
Inductive resolver : Type :=
| CycleDetectionCheckResolver (delegate : option ref)
| CachedCheckResolver (delegate : option ref) (maxCacheSize : Z) (cacheTTL : Z)
| LocalChecker (delegate : option ref) (concurrencyLimit : N).

Inductive resolver_kind : Type := KCycleDetection | KCached | KLocal.

#[global] Instance resolver_kind_eq_dec : EqDecision resolver_kind.
Proof. solve_decision. Defined.

Definition kind_of (r : resolver) : resolver_kind :=
  match r with
  | CycleDetectionCheckResolver _ => KCycleDetection
  | CachedCheckResolver _ _ _ => KCached
  | LocalChecker _ _ => KLocal
  end.

Definition delegate_of (r : resolver) : option ref :=
  match r with
  | CycleDetectionCheckResolver d => d
  | CachedCheckResolver d _ _ => d
  | LocalChecker d _ => d
  end.

Definition with_delegate (d : ref) (r : resolver) : resolver :=
  match r with
  | CycleDetectionCheckResolver _ => CycleDetectionCheckResolver (Some d)
  | CachedCheckResolver _ sz ttl => CachedCheckResolver (Some d) sz ttl
  | LocalChecker _ lim => LocalChecker (Some d) lim
  end.

Record heap : Type := mkHeap {
  objects : gmap ref resolver;
  next_ref : ref
}.

Definition empty_heap : heap := {| objects := ∅; next_ref := 0 |}.

(** Allocation of a fresh object; [mk] receives the object's own address,
    which lets a constructor store a self-reference. *)
Definition alloc (mk : ref → resolver) (h : heap) : ref * heap :=
  let a := next_ref h in
  (a, {| objects := <[a := mk a]> (objects h); next_ref := S a |}).

(** [r.SetDelegate(d)] *)
Definition SetDelegate (r d : ref) (h : heap) : heap :=
  {| objects := alter (with_delegate d) r (objects h); next_ref := next_ref h |}.

Definition kind_at (h : heap) (r : ref) : option resolver_kind :=
  kind_of <$> objects h !! r.

Definition delegate_at (h : heap) (r : ref) : option ref :=
  objects h !! r ≫= delegate_of.

(** The kinds of the resolvers met by following delegates from [r], at
    most [n] of them. *)
Fixpoint delegate_chain (h : heap) (n : nat) (r : ref) : list resolver_kind :=
  match n with
  | O => []
  | S n' =>
      match objects h !! r with
      | None => []
      | Some o =>
          kind_of o ::
          match delegate_of o with
          | None => []
          | Some d => delegate_chain h n' d
          end
      end
  end.

(* ===================================================================== *)
(** ** The server and its options *)
(* ===================================================================== *)

(** Collaborators the server only holds on to (logger, token encoder,
    transport, datastore) are handles. *)
Definition handle : Type := nat.

(** The constants of package [internal/server/config] that
    [NewServerWithOpts] reads; the package is not embedded here,
    so they are a parameter of the construction. *)
Record serverconfig : Type := mkServerConfig {
  DefaultChangelogHorizonOffset : Z;
  DefaultResolveNodeLimit : N;
  DefaultResolveNodeBreadthLimit : N;
  DefaultListObjectsDeadline : Z;
  DefaultListObjectsMaxResults : N;
  DefaultMaxConcurrentReadsForCheck : N;
  DefaultMaxConcurrentReadsForListObjects : N;
  DefaultMaxAuthorizationModelSizeInBytes : Z;
  DefaultCheckQueryCacheEnable : bool;
  DefaultCheckQueryCacheLimit : N;
  DefaultCheckQueryCacheTTL : Z
}.

(** [type Server struct].  Durations are nanosecond counts.  The field
    [typesystemResolver] records the datastore the memoized resolver was
    built over; [cachedCheckResolverCloser] records the resolver whose
    [Close] it is. *)
Record Server : Type := mkServer {
  logger : handle;
  datastore : option handle;
  encoder : handle;
  transport : handle;
  resolveNodeLimit : N;
  resolveNodeBreadthLimit : N;
  changelogHorizonOffset : Z;
  listObjectsDeadline : Z;
  listObjectsMaxResults : N;
  maxConcurrentReadsForListObjects : N;
  maxConcurrentReadsForCheck : N;
  maxAuthorizationModelSizeInBytes : Z;
  experimentals : list string;
  serviceName : string;
  typesystemResolver : option handle;
  checkQueryCacheEnabled : bool;
  checkQueryCacheLimit : N;
  checkQueryCacheTTL : Z;
  cachedCheckResolverCloser : option ref;
  checkResolver : option ref;
  requestDurationByQueryHistogramBuckets : list N
}.

(** [type OpenFGAServiceV1Option func(s *Server)]: the options this
    package defines, each with the value it closes over. *)
Inductive OpenFGAServiceV1Option : Type :=
| WithDatastore (ds : handle)
| WithLogger (l : handle)
| WithTokenEncoder (e : handle)
| WithTransport (t : handle)
| WithResolveNodeLimit (limit : N)
| WithResolveNodeBreadthLimit (limit : N)
| WithChangelogHorizonOffset (offset : Z)
| WithListObjectsDeadline (deadline : Z)
| WithListObjectsMaxResults (limit : N)
| WithMaxConcurrentReadsForListObjects (max : N)
| WithMaxConcurrentReadsForCheck (max : N)
| WithExperimentals (flags : list string)
| WithCheckQueryCacheEnabled (enabled : bool)
| WithCheckQueryCacheLimit (limit : N)
| WithCheckQueryCacheTTL (ttl : Z)
| WithRequestDurationByQueryHistogramBuckets (buckets : list N)
| WithMaxAuthorizationModelSizeInBytes (size : Z).

(** [sort.Slice(buckets, func(i, j int) bool { return buckets[i] < buckets[j] })] *)
Fixpoint insert_sorted (x : N) (l : list N) : list N :=
  match l with
  | [] => [x]
  | y :: l' => if (x <=? y)%N then x :: l else y :: insert_sorted x l'
  end.

Definition sort_Slice (l : list N) : list N := foldr insert_sorted [] l.

(** The assignment each option performs on the server. *)
Definition apply_option (o : OpenFGAServiceV1Option) (s : Server) : Server :=
  let 'mkServer lg ds en tr rnl rnb cho lod lom mrl mrc mas ex sn tsr cqe cql cqt ccl cr bk := s in
  match o with
  | WithDatastore v =>
      mkServer lg (Some v) en tr rnl rnb cho lod lom mrl mrc mas ex sn tsr cqe cql cqt ccl cr bk
  | WithLogger v =>
      mkServer v ds en tr rnl rnb cho lod lom mrl mrc mas ex sn tsr cqe cql cqt ccl cr bk
  | WithTokenEncoder v =>
      mkServer lg ds v tr rnl rnb cho lod lom mrl mrc mas ex sn tsr cqe cql cqt ccl cr bk
  | WithTransport v =>
      mkServer lg ds en v rnl rnb cho lod lom mrl mrc mas ex sn tsr cqe cql cqt ccl cr bk
  | WithResolveNodeLimit v =>
      mkServer lg ds en tr v rnb cho lod lom mrl mrc mas ex sn tsr cqe cql cqt ccl cr bk
  | WithResolveNodeBreadthLimit v =>
      mkServer lg ds en tr rnl v cho lod lom mrl mrc mas ex sn tsr cqe cql cqt ccl cr bk
  | WithChangelogHorizonOffset v =>
      mkServer lg ds en tr rnl rnb v lod lom mrl mrc mas ex sn tsr cqe cql cqt ccl cr bk
  | WithListObjectsDeadline v =>
      mkServer lg ds en tr rnl rnb cho v lom mrl mrc mas ex sn tsr cqe cql cqt ccl cr bk
  | WithListObjectsMaxResults v =>
      mkServer lg ds en tr rnl rnb cho lod v mrl mrc mas ex sn tsr cqe cql cqt ccl cr bk
  | WithMaxConcurrentReadsForListObjects v =>
      mkServer lg ds en tr rnl rnb cho lod lom v mrc mas ex sn tsr cqe cql cqt ccl cr bk
  | WithMaxConcurrentReadsForCheck v =>
      mkServer lg ds en tr rnl rnb cho lod lom mrl v mas ex sn tsr cqe cql cqt ccl cr bk
  | WithExperimentals v =>
      mkServer lg ds en tr rnl rnb cho lod lom mrl mrc mas v sn tsr cqe cql cqt ccl cr bk
  | WithCheckQueryCacheEnabled v =>
      mkServer lg ds en tr rnl rnb cho lod lom mrl mrc mas ex sn tsr v cql cqt ccl cr bk
  | WithCheckQueryCacheLimit v =>
      mkServer lg ds en tr rnl rnb cho lod lom mrl mrc mas ex sn tsr cqe v cqt ccl cr bk
  | WithCheckQueryCacheTTL v =>
      mkServer lg ds en tr rnl rnb cho lod lom mrl mrc mas ex sn tsr cqe cql v ccl cr bk
  | WithRequestDurationByQueryHistogramBuckets v =>
      mkServer lg ds en tr rnl rnb cho lod lom mrl mrc mas ex sn tsr cqe cql cqt ccl cr
        (sort_Slice v)
  | WithMaxAuthorizationModelSizeInBytes v =>
      mkServer lg ds en tr rnl rnb cho lod lom mrl mrc v ex sn tsr cqe cql cqt ccl cr bk
  end.

Definition set_checkResolver (r : ref) (s : Server) : Server :=
  let 'mkServer lg ds en tr rnl rnb cho lod lom mrl mrc mas ex sn tsr cqe cql cqt ccl _ bk := s in
  mkServer lg ds en tr rnl rnb cho lod lom mrl mrc mas ex sn tsr cqe cql cqt ccl (Some r) bk.

Definition set_cachedCheckResolverCloser (r : ref) (s : Server) : Server :=
  let 'mkServer lg ds en tr rnl rnb cho lod lom mrl mrc mas ex sn tsr cqe cql cqt _ cr bk := s in
  mkServer lg ds en tr rnl rnb cho lod lom mrl mrc mas ex sn tsr cqe cql cqt (Some r) cr bk.

Definition set_typesystemResolver (ds : handle) (s : Server) : Server :=
  let 'mkServer lg d en tr rnl rnb cho lod lom mrl mrc mas ex sn _ cqe cql cqt ccl cr bk := s in
  mkServer lg d en tr rnl rnb cho lod lom mrl mrc mas ex sn (Some ds) cqe cql cqt ccl cr bk.

Section NewServer.

Variable cfg : serverconfig.

(** What a constructor of package [graph] stores as the delegate of the
    object it creates, given the object's own address; every delegate is
    set again before the server is returned. *)
Variable initial_delegate : resolver_kind → ref → option ref.

(** The handles of [logger.NewNoopLogger()], [encoder.NewBase64Encoder()]
    and [gateway.NewNoopTransport()], and the gRPC service name. *)
Variables (noop_logger base64_encoder noop_transport : handle).
Variable ServiceName : string.

Definition NewCycleDetectionCheckResolver (self : ref) : resolver :=
  CycleDetectionCheckResolver (initial_delegate KCycleDetection self).

Definition NewLocalChecker (breadthLimit : N) (self : ref) : resolver :=
  LocalChecker (initial_delegate KLocal self) breadthLimit.

Definition NewCachedCheckResolver (maxCacheSize ttl : Z) (self : ref) : resolver :=
  CachedCheckResolver (initial_delegate KCached self) maxCacheSize ttl.

Definition initial_server : Server :=
  {| logger := noop_logger;
     datastore := None;
     encoder := base64_encoder;
     transport := noop_transport;
     changelogHorizonOffset := DefaultChangelogHorizonOffset cfg;
     resolveNodeLimit := DefaultResolveNodeLimit cfg;
     resolveNodeBreadthLimit := DefaultResolveNodeBreadthLimit cfg;
     listObjectsDeadline := DefaultListObjectsDeadline cfg;
     listObjectsMaxResults := DefaultListObjectsMaxResults cfg;
     maxConcurrentReadsForCheck := DefaultMaxConcurrentReadsForCheck cfg;
     maxConcurrentReadsForListObjects := DefaultMaxConcurrentReadsForListObjects cfg;
     maxAuthorizationModelSizeInBytes := DefaultMaxAuthorizationModelSizeInBytes cfg;
     experimentals := [];
     typesystemResolver := None;
     checkQueryCacheEnabled := DefaultCheckQueryCacheEnable cfg;
     checkQueryCacheLimit := DefaultCheckQueryCacheLimit cfg;
     checkQueryCacheTTL := DefaultCheckQueryCacheTTL cfg;
     cachedCheckResolverCloser := None;
     checkResolver := None;
     requestDurationByQueryHistogramBuckets := [50%N; 200%N];
     serviceName := ServiceName |}.

(** [for _, opt := range opts { opt(s) }] *)
Definition apply_options (opts : list OpenFGAServiceV1Option) (s : Server) : Server :=
  foldl (λ s o, apply_option o s) s opts.

(** The resolver wiring of [NewServerWithOpts], lines 312 to 336: the
    server after the assignment of [checkResolver] (and of the cache
    closer), and the heap of resolvers. *)
Definition wire_resolvers (s : Server) : Server * heap :=
  let '(cycleDetectionCheckResolver, h) :=
    alloc NewCycleDetectionCheckResolver empty_heap in
  let s := set_checkResolver cycleDetectionCheckResolver s in
  let '(localChecker, h) :=
    alloc (NewLocalChecker (resolveNodeBreadthLimit s)) h in
  let h := SetDelegate cycleDetectionCheckResolver localChecker h in
  let h := SetDelegate localChecker cycleDetectionCheckResolver h in
  if checkQueryCacheEnabled s then
    let '(cachedCheckResolver, h) :=
      alloc (NewCachedCheckResolver (Z.of_N (checkQueryCacheLimit s))
               (checkQueryCacheTTL s)) h in
    let s := set_cachedCheckResolverCloser cachedCheckResolver s in
    let h := SetDelegate cachedCheckResolver localChecker h in
    let h := SetDelegate cycleDetectionCheckResolver cachedCheckResolver h in
    (s, h)
  else (s, h).

(** [NewServerWithOpts]: the server and the heap of resolvers it owns, or
    the message of the error. *)
Definition NewServerWithOpts (opts : list OpenFGAServiceV1Option)
  : (Server * heap) + string :=
  let s := apply_options opts initial_server in
  let '(s, h) := wire_resolvers s in
  match datastore s with
  | None => inr "a datastore option must be provided"
  | Some ds =>
      if bool_decide (length (requestDurationByQueryHistogramBuckets s) = 0)
      then inr "request duration datastore count buckets must not be empty"
      else inl (set_typesystemResolver ds s, h)
  end.

End NewServer.

(* ===================================================================== *)
(** ** Server.resolveTypesystem and Server.Check *)
(* ===================================================================== *)

(** What a handler returns: a response, an error for the caller, or the
    run-time panic of a method call through a nil interface value. *)
Inductive result (A : Type) : Type :=
| Ok (a : A)
| Err (e : server_error)
| NilDereference.
Arguments Ok {A} a.
Arguments Err {A} e.
Arguments NilDereference {A}.

(** What [Server.Check] puts into the context of the resolution: the
    typesystem, and a [BoundedConcurrencyTupleReader] of the given width
    over a [CombinedTupleReader] of the datastore and the request's
    contextual tuples. *)
Record check_context : Type := mkCheckContext {
  cc_typesystem : TypeSystem;
  cc_reader_datastore : option handle;
  cc_reader_contextual : list TupleKey;
  cc_reader_concurrency : N
}.

(** The collaborators of a handler call, as the values they return:
    request validation, the memoized typesystem resolver, tuple validation
    and the resolver stack behind [s.checkResolver]. *)
Record Collaborators : Type := mkCollaborators {
  RequestIsValidatedFromContext : bool;
  Validate : CheckRequest → option string;
  typesystemResolverFunc : string → string → TypeSystem + goerror;
  ValidateUserObjectRelation : TypeSystem → TupleKey → option goerror;
  ValidateTuple : TypeSystem → TupleKey → option goerror;
  ResolveCheck : ref → check_context → ResolveCheckRequest →
                 ResolveCheckResponse + goerror
}.

(** [Server.resolveTypesystem].  On success the function also records the
    resolved model id on the span, the gRPC tags and a response header;
    those writes do not reach the returned values. *)
Definition resolveTypesystem (env : Collaborators) (storeID modelID : string)
  : TypeSystem + server_error :=
  match typesystemResolverFunc env storeID modelID with
  | inr err =>
      if errors_Is err ErrModelNotFound then
        if bool_decide (modelID = "") then
          inr (LatestAuthorizationModelNotFound storeID)
        else
          inr (AuthorizationModelNotFound modelID)
      else if errors_Is err ErrInvalidModel then
        inr (ValidationError err)
      else
        inr (HandleError "" err)
  | inl typesys => inl typesys
  end.

(** The loop over the contextual tuples: the first tuple that fails
    [validation.ValidateTuple] ends the call. *)
Fixpoint validate_contextual (env : Collaborators) (typesys : TypeSystem)
    (tks : list TupleKey) : option goerror :=
  match tks with
  | [] => None
  | ctxTuple :: rest =>
      match ValidateTuple env typesys ctxTuple with
      | Some err => Some err
      | None => validate_contextual env typesys rest
      end
  end.

(** The request [Server.Check] hands to the resolver, and its context. *)
Definition check_resolve_request (s : Server) (typesys : TypeSystem)
    (req : CheckRequest) : ResolveCheckRequest :=
  {| rc_StoreID := req_StoreId req;
     rc_AuthorizationModelID := GetAuthorizationModelID typesys;
     rc_TupleKey := ConvertCheckRequestTupleKeyToTupleKey (req_TupleKey req);
     rc_ContextualTuples := req_ContextualTuples req;
     rc_Context := req_Context req;
     rc_ResolutionMetadata :=
       {| Depth := resolveNodeLimit s; DatastoreQueryCount := 0 |} |}.

Definition check_resolve_context (s : Server) (typesys : TypeSystem)
    (req : CheckRequest) : check_context :=
  {| cc_typesystem := typesys;
     cc_reader_datastore := datastore s;
     cc_reader_contextual := req_ContextualTuples req;
     cc_reader_concurrency := maxConcurrentReadsForCheck s |}.

(** [Server.Check].  The span, tag and histogram writes of the handler do
    not reach the returned values and are left out. *)
Definition Server_Check (s : Server) (env : Collaborators) (req : CheckRequest)
  : result CheckResponse :=
  let tk := req_TupleKey req in
  match (if RequestIsValidatedFromContext env then None else Validate env req) with
  | Some msg => Err (StatusInvalidArgument msg)
  | None =>
      let storeID := req_StoreId req in
      match resolveTypesystem env storeID (req_AuthorizationModelId req) with
      | inr err => Err err
      | inl typesys =>
          match ValidateUserObjectRelation env typesys
                  (ConvertCheckRequestTupleKeyToTupleKey tk) with
          | Some err => Err (ValidationError err)
          | None =>
              match validate_contextual env typesys (req_ContextualTuples req) with
              | Some err => Err (HandleTupleValidateError err)
              | None =>
                  match checkResolver s with
                  | None => NilDereference
                  | Some resolver =>
                      match ResolveCheck env resolver
                              (check_resolve_context s typesys req)
                              (check_resolve_request s typesys req) with
                      | inr err =>
                          if errors_Is err ErrResolutionDepthExceeded
                             || errors_Is err ErrCycleDetected then
                            Err AuthorizationModelResolutionTooComplex
                          else if errors_Is err ErrEvaluationFailed then
                            Err (ValidationError err)
                          else
                            Err (HandleError "" err)
                      | inl resp => Ok {| resp_Allowed := Allowed resp |}
                      end
                  end
              end
          end
      end
  end.

(** The handler gets as far as the resolver: the request is valid, the
    typesystem [typesys] resolves, the tuple key and the contextual tuples
    validate against it, and [resolution] is what the resolver stack
    returns for the request the handler builds. *)
Definition resolution_returns (s : Server) (env : Collaborators)
    (req : CheckRequest) (resolution : ResolveCheckResponse + goerror) : Prop :=
  ∃ typesys resolver,
    (if RequestIsValidatedFromContext env then None else Validate env req) = None ∧
    resolveTypesystem env (req_StoreId req) (req_AuthorizationModelId req)
      = inl typesys ∧
    ValidateUserObjectRelation env typesys
      (ConvertCheckRequestTupleKeyToTupleKey (req_TupleKey req)) = None ∧
    validate_contextual env typesys (req_ContextualTuples req) = None ∧
    checkResolver s = Some resolver ∧
    ResolveCheck env resolver (check_resolve_context s typesys req)
      (check_resolve_request s typesys req) = resolution.

(* ===================================================================== *)
(** ** BoundedConcurrencyTupleReader *)
(* ===================================================================== *)

(** The four read methods of the decorator.  Their bodies are the same up
    to the method of the wrapped reader they end in. *)
Inductive method : Type :=
| ReadUserTuple
| Read
| ReadUsersetTuples
| ReadStartingWithUser.

#[global] Instance method_eq_dec : EqDecision method.
Proof. solve_decision. Defined.

(** [ctx.Err()] of a context that is done. *)
Inductive ctx_error : Type := CtxCanceled | CtxDeadlineExceeded.

#[global] Instance ctx_error_eq_dec : EqDecision ctx_error.
Proof. solve_decision. Defined.

Definition ctx_Err (e : ctx_error) : goerror :=
  match e with
  | CtxCanceled => ErrNew Canceled
  | CtxDeadlineExceeded => ErrNew DeadlineExceeded
  end.

(** A [context.Context] as the decorator reads it: its identity (whether
    it is done is part of the shared state, since cancellation comes from
    outside the call), the RPC info and the span it carries. *)
Record Context : Type := mkContext {
  ctx_ident : nat;
  rpc_Service : string;
  rpc_Method : string;
  ctx_span : nat
}.

(** What a read returns: a tuple, or a lazy iterator given by the tuples
    it has yet to yield; and the pair [(value, error)] of a Go return. *)
Inductive read_value : Type :=
| VTuple (t : TupleKey)
| VIterator (pending : list TupleKey).

Record read_return : Type := mkReturn {
  rv : option read_value;
  rerr : option goerror
}.

(** The static result types: [ReadUserTuple] returns a tuple, the other
    three an iterator. *)
Definition fits (m : method) (ret : read_return) : bool :=
  match rv ret, m with
  | None, _ => true
  | Some (VTuple _), ReadUserTuple => true
  | Some (VIterator _), (Read | ReadUsersetTuples | ReadStartingWithUser) => true
  | _, _ => false
  end.

(** The two cases of the [select] in [waitForLimiter]. *)
Inductive select_case : Type :=
| CaseDone     (* case <-ctx.Done() *)
| CaseSend.    (* case b.limiter <- struct{}{} *)

(** Where a goroutine stands in a read method of the decorator; the line
    numbers are those of [ReadUserTuple] and [waitForLimiter] in
    boundedconcurrency.go, the other three methods being alike. *)
Inductive pc : Type :=
| AtSelect
    (* line 138: in waitForLimiter, [start] is set and the recording is
       deferred; the cases of the select are not yet examined *)
| Parked
    (* line 138: no case could proceed; blocked on ctx.Done() and the send *)
| AfterSelect (chosen : option ctx_error)
    (* a case has run: [Some e] for [return ctx.Err()] (line 141), [None]
       for the send (lines 142 to 146); the deferred recording of lines 125
       to 136 is still to run *)
| Aborted (e : ctx_error)
    (* lines 58 to 60: the method has returned [nil, err] *)
| InWrapped
    (* lines 62 to 66: the receive is deferred, the wrapped reader's method
       is running *)
| AtRelease (ret : read_return)
    (* the wrapped reader has returned; the deferred [<-b.limiter] of line
       63 is still to run *)
| Returned (ret : read_return).
    (* the method has returned [ret]; an iterator is now the caller's *)

Abbreviation tid := nat.

(** A goroutine inside a read method: the method, its [ctx] argument, the
    local [start] of [waitForLimiter] (nanoseconds) and the program point. *)
Record goroutine : Type := mkGoroutine {
  g_method : method;
  g_ctx : Context;
  g_start : Z;
  g_pc : pc
}.

Definition set_pc (p : pc) (g : goroutine) : goroutine :=
  {| g_method := g_method g; g_ctx := g_ctx g; g_start := g_start g; g_pc := p |}.

(** What the decorator does to the outside: an observation of the
    histogram [boundedReadDelayMsHistogram] under its two labels, an
    attribute set on a span, and a call of the wrapped reader. *)
Inductive effect : Type :=
| Observe (grpc_service grpc_method : string) (ms : Z)
| SetAttributes (span : nat) (key : string) (value : Z)
| CallWrapped (m : method).

#[global] Instance effect_eq_dec : EqDecision effect.
Proof. solve_decision. Defined.

(** [type BoundedConcurrencyTupleReader struct]: the embedded reader is
    the environment; of the [limiter] channel the struct fixes the
    capacity. *)
Record BoundedConcurrencyTupleReader : Type := mkBounded {
  limiter_cap : nat
}.

(** [NewBoundedConcurrencyTupleReader(wrapped, concurrency)]:
    [make(chan struct{}, concurrency)]. *)
Definition NewBoundedConcurrencyTupleReader (concurrency : N)
  : BoundedConcurrencyTupleReader :=
  {| limiter_cap := N.to_nat concurrency |}.

(** The state shared by the goroutines that use one decorator: the number
    of tokens buffered in [b.limiter], the goroutines, the contexts that
    are done with their [Err()], and the effects so far, oldest first,
    each with the goroutine that caused it. *)
Record state : Type := mkState {
  limiter : nat;
  goroutines : list goroutine;
  cancelled : gmap nat ctx_error;
  trace : list (tid * effect)
}.

Definition initial_state : state :=
  {| limiter := 0; goroutines := []; cancelled := ∅; trace := [] |}.

Definition timeWaitingSpanAttribute : string := "time_waiting".

(** [time.Since(start)] at clock reading [now], and
    [Duration.Milliseconds]: integer division truncating towards zero. *)
Definition Since (start now : Z) : Z := now - start.
Definition Milliseconds (d : Z) : Z := Z.quot d 1000000.

(** The deferred function of [waitForLimiter], run at clock reading [now]:
    one observation labelled by the RPC info of the context, one attribute
    on the span of the context.  The observed [float64(timeWaiting)] is
    kept as the integer it converts. *)
Definition recording (g : goroutine) (now : Z) : list effect :=
  let timeWaiting := Milliseconds (Since (g_start g) now) in
  [ Observe (rpc_Service (g_ctx g)) (rpc_Method (g_ctx g)) timeWaiting;
    SetAttributes (ctx_span (g_ctx g)) timeWaitingSpanAttribute timeWaiting ].

(** The atomic actions.  Each is an action of the environment (a new
    call, a cancellation, the wrapped reader returning) or one step of a
    goroutine through the method body. *)
Inductive event : Type :=
| EvCall (m : method) (ctx : Context) (now : Z)
    (* a goroutine calls b.m(ctx, ...), enters waitForLimiter, reads the
       clock into start and reaches the select *)
| EvCancel (c : nat) (e : ctx_error)
    (* the context is cancelled or its deadline passes: Done() is closed *)
| EvSelect (i : tid) (c : select_case)
    (* the select finds case c able to proceed and runs it; when both can
       proceed either may be the one *)
| EvPark (i : tid)
    (* the select finds no case able to proceed and blocks *)
| EvRecord (i : tid) (now : Z)
    (* waitForLimiter returns: its deferred function runs, then the method
       returns the error or goes on to call the wrapped reader *)
| EvWrappedReturn (i : tid) (ret : read_return)
    (* the wrapped reader's method returns *)
| EvRelease (i : tid) (wake : option tid)
    (* the deferred <-b.limiter, then the method returns; the receive
       passes the freed slot to a blocked sender when there is one *)
| EvNext (i : tid).
    (* the caller takes the next tuple from the iterator it was returned *)

Definition is_parked (g : goroutine) : bool :=
  match g_pc g with Parked => true | _ => false end.

(** Closing [Done()] wakes every goroutine blocked on it; its select then
    runs [return ctx.Err()]. *)
Definition wake_cancelled (c : nat) (e : ctx_error) (g : goroutine) : goroutine :=
  if is_parked g && bool_decide (ctx_ident (g_ctx g) = c)
  then set_pc (AfterSelect (Some e)) g
  else g.

Definition with_goroutine (i : tid) (g : goroutine) (s : state) : state :=
  {| limiter := limiter s; goroutines := <[i := g]> (goroutines s);
     cancelled := cancelled s; trace := trace s |}.

Definition with_limiter (n : nat) (s : state) : state :=
  {| limiter := n; goroutines := goroutines s;
     cancelled := cancelled s; trace := trace s |}.

Definition emit (i : tid) (es : list effect) (s : state) : state :=
  {| limiter := limiter s; goroutines := goroutines s;
     cancelled := cancelled s; trace := trace s ++ ((λ e, (i, e)) <$> es) |}.

(** One action on the shared state; [None] when the action cannot happen
    in this state.

    A send proceeds at once when the buffer has room and blocks otherwise;
    a receive proceeds when the buffer holds a token.  A receive on an
    empty buffer would block; no goroutine is ever at the deferred receive
    with the buffer empty (lemma [release_never_blocks]), so the state has
    no blocked receivers and no send is ever handed to one.  Among several
    blocked senders the runtime wakes the oldest; here the action names
    the one that is woken. *)
Definition exec (b : BoundedConcurrencyTupleReader) (s : state) (ev : event)
  : option state :=
  match ev with
  | EvCall m ctx now =>
      Some {| limiter := limiter s;
              goroutines := goroutines s ++
                [ {| g_method := m; g_ctx := ctx; g_start := now; g_pc := AtSelect |} ];
              cancelled := cancelled s;
              trace := trace s |}
  | EvCancel c e =>
      match cancelled s !! c with
      | Some _ => Some s
      | None =>
          Some {| limiter := limiter s;
                  goroutines := wake_cancelled c e <$> goroutines s;
                  cancelled := <[c := e]> (cancelled s);
                  trace := trace s |}
      end
  | EvSelect i c =>
      match goroutines s !! i with
      | Some g =>
          match g_pc g, c with
          | AtSelect, CaseDone =>
              match cancelled s !! ctx_ident (g_ctx g) with
              | Some e => Some (with_goroutine i (set_pc (AfterSelect (Some e)) g) s)
              | None => None
              end
          | AtSelect, CaseSend =>
              if bool_decide (limiter s < limiter_cap b)
              then Some (with_goroutine i (set_pc (AfterSelect None) g)
                           (with_limiter (S (limiter s)) s))
              else None
          | _, _ => None
          end
      | None => None
      end
  | EvPark i =>
      match goroutines s !! i with
      | Some g =>
          match g_pc g, cancelled s !! ctx_ident (g_ctx g) with
          | AtSelect, None =>
              if bool_decide (limiter s < limiter_cap b) then None
              else Some (with_goroutine i (set_pc Parked g) s)
          | _, _ => None
          end
      | None => None
      end
  | EvRecord i now =>
      match goroutines s !! i with
      | Some g =>
          match g_pc g with
          | AfterSelect (Some e) =>
              Some (with_goroutine i (set_pc (Aborted e) g)
                      (emit i (recording g now) s))
          | AfterSelect None =>
              Some (with_goroutine i (set_pc InWrapped g)
                      (emit i (recording g now ++ [CallWrapped (g_method g)]) s))
          | _ => None
          end
      | None => None
      end
  | EvWrappedReturn i ret =>
      match goroutines s !! i with
      | Some g =>
          match g_pc g with
          | InWrapped =>
              if fits (g_method g) ret
              then Some (with_goroutine i (set_pc (AtRelease ret) g) s)
              else None
          | _ => None
          end
      | None => None
      end
  | EvRelease i wake =>
      match goroutines s !! i with
      | Some g =>
          match g_pc g, limiter s with
          | AtRelease ret, S n =>
              match wake with
              | None =>
                  if existsb is_parked (goroutines s) then None
                  else Some (with_goroutine i (set_pc (Returned ret) g)
                               (with_limiter n s))
              | Some k =>
                  match goroutines s !! k with
                  | Some gk =>
                      if is_parked gk
                      then Some (with_goroutine i (set_pc (Returned ret) g)
                                   (with_goroutine k (set_pc (AfterSelect None) gk) s))
                      else None
                  | None => None
                  end
              end
          | _, _ => None
          end
      | None => None
      end
  | EvNext i =>
      match goroutines s !! i with
      | Some g =>
          match g_pc g with
          | Returned {| rv := Some (VIterator (_ :: rest)); rerr := err |} =>
              Some (with_goroutine i
                      (set_pc (Returned {| rv := Some (VIterator rest); rerr := err |}) g) s)
          | _ => None
          end
      | None => None
      end
  end.

(** A run: actions one after another, from a given state and from the
    initial one. *)
Fixpoint run_from (b : BoundedConcurrencyTupleReader) (s : state)
    (evs : list event) : option state :=
  match evs with
  | [] => Some s
  | ev :: evs' =>
      match exec b s ev with
      | Some s' => run_from b s' evs'
      | None => None
      end
  end.

Definition run (b : BoundedConcurrencyTupleReader) (evs : list event)
  : option state :=
  run_from b initial_state evs.

(** A goroutine holds a slot of the limiter from the send until its
    deferred receive; the wrapped read executes while it is [InWrapped]. *)
Definition holds_slot (p : pc) : bool :=
  match p with
  | AfterSelect None | InWrapped | AtRelease _ => true
  | _ => false
  end.

Definition in_wrapped (p : pc) : bool :=
  match p with InWrapped => true | _ => false end.

Definition count_pc (f : pc → bool) (gs : list goroutine) : nat :=
  sum_list ((λ g, if f (g_pc g) then 1 else 0) <$> gs).

(** The value a goroutine's call has returned to its caller, if it has. *)
Definition returned_value (p : pc) : option read_return :=
  match p with
  | Aborted e => Some {| rv := None; rerr := Some (ctx_Err e) |}
  | Returned ret => Some ret
  | _ => None
  end.

(** The effects of goroutine [i] in a trace, in order. *)
Definition effects_of (i : tid) (tr : list (tid * effect)) : list effect :=
  omap (λ x : tid * effect, if bool_decide (x.1 = i) then Some x.2 else None) tr.

(** The goroutines an action is a step of. *)
Definition acts (ev : event) (i : tid) : bool :=
  match ev with
  | EvCall _ _ _ | EvCancel _ _ => false
  | EvSelect j _ | EvPark j | EvRecord j _ | EvWrappedReturn j _ | EvNext j =>
      bool_decide (j = i)
  | EvRelease j wake => bool_decide (j = i) || bool_decide (wake = Some i)
  end.

(** The control flow of a read method: the program points a goroutine
    can move between in one action. *)
Inductive pc_succ : pc → pc → Prop :=
| succ_park : pc_succ AtSelect Parked
| succ_select chosen : pc_succ AtSelect (AfterSelect chosen)
| succ_wake chosen : pc_succ Parked (AfterSelect chosen)
| succ_abort e : pc_succ (AfterSelect (Some e)) (Aborted e)
| succ_call : pc_succ (AfterSelect None) InWrapped
| succ_wrapped ret : pc_succ InWrapped (AtRelease ret)
| succ_release ret : pc_succ (AtRelease ret) (Returned ret)
| succ_next t rest err :
    pc_succ (Returned {| rv := Some (VIterator (t :: rest)); rerr := err |})
            (Returned {| rv := Some (VIterator rest); rerr := err |}).

(** What goroutine [g] must have caused by the time it is at its program
    point: nothing while it is in [waitForLimiter]; one recording once it
    has left it; and, once admitted, one call of the wrapped reader after
    the recording. *)
Definition expected_effects (g : goroutine) (es : list effect) : Prop :=
  match g_pc g with
  | AtSelect | Parked | AfterSelect _ => es = []
  | Aborted _ => ∃ now, es = recording g now
  | InWrapped | AtRelease _ | Returned _ =>
      ∃ now, es = recording g now ++ [CallWrapped (g_method g)]
  end.

Definition effects_on (gs : list goroutine) (tr : list (nat * effect)) : Prop :=
  (∀ i g, gs !! i = Some g → expected_effects g (effects_of i tr)) ∧
  (∀ j e, (j, e) ∈ tr → j < length gs).

Definition effects_inv (s : state) : Prop :=
  effects_on (goroutines s) (trace s).

(** The limiter holds one token for each goroutine between its send and
    its deferred receive, and never more than its capacity. *)
Definition slots_inv (b : BoundedConcurrencyTupleReader) (s : state) : Prop :=
  count_pc holds_slot (goroutines s) = limiter s ∧ limiter s ≤ limiter_cap b.

Definition weight (f : pc → bool) (g : goroutine) : nat :=
  if f (g_pc g) then 1 else 0.




(** A goroutine blocks only on a context that is not done, and closing
    [Done()] wakes it: no blocked goroutine has a context that is done. *)
Definition parked_inv (s : state) : Prop :=
  ∀ i g, goroutines s !! i = Some g → g_pc g = Parked →
         cancelled s !! ctx_ident (g_ctx g) = None.

(** A goroutine is blocked only while the limiter is full. *)
Definition full_inv (b : BoundedConcurrencyTupleReader) (s : state) : Prop :=
  ∀ i g, goroutines s !! i = Some g → g_pc g = Parked →
         limiter s = limiter_cap b.

(** What the wrapped reader has returned has the result type of the
    method. *)
Definition well_typed (g : goroutine) : Prop :=
  match g_pc g with
  | AtRelease ret | Returned ret => fits (g_method g) ret = true
  | _ => True
  end.

Definition fits_inv (s : state) : Prop :=
  ∀ i g, goroutines s !! i = Some g → well_typed g.

(** The program points of a call that ends with the context's error. *)
Definition aborting (e : ctx_error) (p : pc) : Prop :=
  p = AfterSelect (Some e) ∨ p = Aborted e.

(** [(iterator, err)] as a return value, and the program points of a call
    that has returned an iterator of which a final part of [it] is still
    to be yielded. *)
Definition iterator (pending : list TupleKey) (err : option goerror) : read_return :=
  {| rv := Some (VIterator pending); rerr := err |}.

Definition draining (it : list TupleKey) (err : option goerror) (p : pc) : Prop :=
  ∃ rest, p = Returned (iterator rest err) ∧ rest `suffix_of` it.

(* ===================================================================== *)
(** ** More of package server *)
(* ===================================================================== *)


(** The value an option of a given kind carries, and the last option of
    that kind in a list of options. *)
Definition datastore_option (o : OpenFGAServiceV1Option) : option handle :=
  match o with WithDatastore ds => Some ds | _ => None end.

Definition resolveNodeLimit_option (o : OpenFGAServiceV1Option) : option N :=
  match o with WithResolveNodeLimit limit => Some limit | _ => None end.

Definition resolveNodeBreadthLimit_option (o : OpenFGAServiceV1Option) : option N :=
  match o with WithResolveNodeBreadthLimit limit => Some limit | _ => None end.

Definition maxConcurrentReadsForCheck_option (o : OpenFGAServiceV1Option) : option N :=
  match o with WithMaxConcurrentReadsForCheck max => Some max | _ => None end.

Definition checkQueryCacheEnabled_option (o : OpenFGAServiceV1Option) : option bool :=
  match o with WithCheckQueryCacheEnabled enabled => Some enabled | _ => None end.

Definition buckets_option (o : OpenFGAServiceV1Option) : option (list N) :=
  match o with
  | WithRequestDurationByQueryHistogramBuckets buckets => Some buckets
  | _ => None
  end.

Definition last_option {A : Type} (pick : OpenFGAServiceV1Option → option A)
    (opts : list OpenFGAServiceV1Option) : option A :=
  last (omap pick opts).

(** What the handlers other than [Check] return as their error: a value
    of package serverErrors, [serverErrors.NewInternalError(public, err)],
    or the error of a collaborator handed on as it is. *)
Inductive handler_error : Type :=
| ServerError (e : server_error)
| NewInternalError (public : string) (cause : goerror)
| Unmapped (err : goerror).

Inductive outcome (A : Type) : Type :=
| Responds (a : A)
| Fails (e : handler_error)
| Panics.
Arguments Responds {A} a.
Arguments Fails {A} e.
Arguments Panics {A}.

(** [openfgav1.ListObjectsRequest]; [StreamedListObjectsRequest] has the
    same fields. *)
Record ListObjectsRequest : Type := mkListObjectsRequest {
  lo_StoreId : string;
  lo_AuthorizationModelId : string;
  lo_Type : string;
  lo_Relation : string;
  lo_User : string;
  lo_ContextualTuples : list TupleKey;
  lo_Context : Struct
}.

Record ListObjectsResponse : Type := mkListObjectsResponse {
  resp_Objects : list string
}.

(** What [commands.NewListObjectsQuery] is given: the datastore, the
    server's check resolver, and the values of the six options. *)
Record ListObjectsQuery : Type := mkListObjectsQuery {
  q_datastore : option handle;
  q_checkResolver : option ref;
  q_logger : handle;
  q_listObjectsDeadline : Z;
  q_listObjectsMaxResults : N;
  q_resolveNodeLimit : N;
  q_resolveNodeBreadthLimit : N;
  q_maxConcurrentReads : N
}.

(** The result of [q.Execute]: the objects, and the query count behind the
    pointer [ResolutionMetadata.QueryCount]. *)
Record ListObjectsResult : Type := mkListObjectsResult {
  Objects : list string;
  QueryCount : option N
}.

(** The collaborators of the two list-objects handlers, as the values
    they return. *)
Record ListObjectsCollaborators : Type := mkListObjectsCollaborators {
  lo_Validate : ListObjectsRequest → option string;
  NewListObjectsQuery : ListObjectsQuery → option goerror;
  Execute : ListObjectsQuery → TypeSystem → ListObjectsRequest →
            ListObjectsResult + goerror;
  ExecuteStreamed : ListObjectsQuery → TypeSystem → ListObjectsRequest →
                    option N + goerror
}.

(** The query both handlers build, lines 396 to 405 and 481 to 490. *)
Definition list_objects_query (s : Server) : ListObjectsQuery :=
  {| q_datastore := datastore s;
     q_checkResolver := checkResolver s;
     q_logger := logger s;
     q_listObjectsDeadline := listObjectsDeadline s;
     q_listObjectsMaxResults := listObjectsMaxResults s;
     q_resolveNodeLimit := resolveNodeLimit s;
     q_resolveNodeBreadthLimit := resolveNodeBreadthLimit s;
     q_maxConcurrentReads := maxConcurrentReadsForListObjects s |}.

Definition with_model_id (modelID : string) (req : ListObjectsRequest)
  : ListObjectsRequest :=
  {| lo_StoreId := lo_StoreId req;
     lo_AuthorizationModelId := modelID;
     lo_Type := lo_Type req;
     lo_Relation := lo_Relation req;
     lo_User := lo_User req;
     lo_ContextualTuples := lo_ContextualTuples req;
     lo_Context := lo_Context req |}.

(** [Server.ListObjects].  The span, tag and histogram writes are left
    out; of the histogram code the dereference of the query count stays. *)
Definition Server_ListObjects (s : Server) (env : Collaborators)
    (q : ListObjectsCollaborators) (req : ListObjectsRequest)
  : outcome ListObjectsResponse :=
  match (if RequestIsValidatedFromContext env then None else lo_Validate q req) with
  | Some msg => Fails (ServerError (StatusInvalidArgument msg))
  | None =>
      let storeID := lo_StoreId req in
      match resolveTypesystem env storeID (lo_AuthorizationModelId req) with
      | inr err => Fails (ServerError err)
      | inl typesys =>
          match NewListObjectsQuery q (list_objects_query s) with
          | Some err => Fails (NewInternalError "" err)
          | None =>
              match Execute q (list_objects_query s) typesys
                      (with_model_id (GetAuthorizationModelID typesys) req) with
              | inr err =>
                  if errors_Is err ErrEvaluationFailed
                  then Fails (ServerError (ValidationError err))
                  else Fails (Unmapped err)
              | inl result =>
                  match QueryCount result with
                  | None => Panics
                  | Some _ => Responds {| resp_Objects := Objects result |}
                  end
              end
          end
      end
  end.

(** [Server.StreamedListObjects]: it returns only an error.  The handler
    writes the resolved model id into the request it was given and hands
    that request on. *)
Definition Server_StreamedListObjects (s : Server) (env : Collaborators)
    (q : ListObjectsCollaborators) (req : ListObjectsRequest)
  : outcome unit :=
  match (if RequestIsValidatedFromContext env then None else lo_Validate q req) with
  | Some msg => Fails (ServerError (StatusInvalidArgument msg))
  | None =>
      let storeID := lo_StoreId req in
      match resolveTypesystem env storeID (lo_AuthorizationModelId req) with
      | inr err => Fails (ServerError err)
      | inl typesys =>
          match NewListObjectsQuery q (list_objects_query s) with
          | Some err => Fails (NewInternalError "" err)
          | None =>
              match ExecuteStreamed q (list_objects_query s) typesys
                      (with_model_id (GetAuthorizationModelID typesys) req) with
              | inr err => Fails (Unmapped err)
              | inl resolutionMetadata =>
                  match resolutionMetadata with
                  | None => Panics
                  | Some _ => Responds tt
                  end
              end
          end
      end
  end.

(** Both handlers get as far as running the query. *)
Definition query_runs (s : Server) (env : Collaborators)
    (q : ListObjectsCollaborators) (req : ListObjectsRequest)
    (typesys : TypeSystem) : Prop :=
  (if RequestIsValidatedFromContext env then None else lo_Validate q req) = None ∧
  resolveTypesystem env (lo_StoreId req) (lo_AuthorizationModelId req) = inl typesys ∧
  NewListObjectsQuery q (list_objects_query s) = None.

(* ===================================================================== *)
(** ** Package logger *)
(* ===================================================================== *)

(** [type OptionsLogger struct] and the three options. *)
Record OptionsLogger : Type := mkOptionsLogger {
  Format : string;
  Level : string;
  TimestampFormat : string
}.

Inductive OptionLogger : Type :=
| WithFormat (format : string)
| WithLevel (level : string)
| WithTimestampFormat (timestampFormat : string).

Definition apply_logger_option (opt : OptionLogger) (ol : OptionsLogger)
  : OptionsLogger :=
  match opt with
  | WithFormat format =>
      {| Format := format; Level := Level ol; TimestampFormat := TimestampFormat ol |}
  | WithLevel level =>
      {| Format := Format ol; Level := level; TimestampFormat := TimestampFormat ol |}
  | WithTimestampFormat timestampFormat =>
      {| Format := Format ol; Level := Level ol; TimestampFormat := timestampFormat |}
  end.

Definition format_option (o : OptionLogger) : option string :=
  match o with WithFormat f => Some f | _ => None end.

Definition level_option (o : OptionLogger) : option string :=
  match o with WithLevel l => Some l | _ => None end.

Definition timestamp_option (o : OptionLogger) : option string :=
  match o with WithTimestampFormat t => Some t | _ => None end.

(** The fields of [zap.Config] that [NewLogger] assigns.  The encoders are
    the two time encoders and the level encoder the function names, or
    whatever the production configuration comes with. *)
Inductive TimeEncoder : Type :=
| ISO8601TimeEncoder
| EpochTimeEncoder
| ProductionTimeEncoder.

Inductive LevelEncoder : Type :=
| CapitalColorLevelEncoder
| ProductionLevelEncoder.

Record zap_Config : Type := mkZapConfig {
  cfg_Level : Z;
  cfg_Encoding : string;
  cfg_DisableCaller : bool;
  cfg_DisableStacktrace : bool;
  cfg_TimeKey : string;
  cfg_CallerKey : string;
  cfg_EncodeLevel : LevelEncoder;
  cfg_EncodeTime : TimeEncoder
}.

(** A [*zap.Logger]: the no-op logger, or the logger built from a
    configuration, with the fields added by [With]. *)
Inductive zap_Logger : Type :=
| zap_NewNop
| zap_Built (cfg : zap_Config) (fields : list (string * string)).

(** [log.With(fields...)] *)
Definition zap_With (fields : list (string * string)) (l : zap_Logger) : zap_Logger :=
  match l with
  | zap_NewNop => zap_NewNop
  | zap_Built cfg fs => zap_Built cfg (fs ++ fields)
  end.

(** What [NewLogger] takes from outside the package: of go.uber.org/zap
    the level parser, the production configuration and whether [Build]
    accepts a configuration; of internal/build the version and commit. *)
Record Zap : Type := mkZap {
  ParseAtomicLevel : string → Z + goerror;
  NewProductionConfig : zap_Config;
  Build : zap_Config → option goerror;
  build_Version : string;
  build_Commit : string
}.

Definition default_logger_options : OptionsLogger :=
  {| Level := "info"; Format := "text"; TimestampFormat := "ISO8601" |}.

Definition logger_options (options : list OptionLogger) : OptionsLogger :=
  foldl (λ ol opt, apply_logger_option opt ol) default_logger_options options.

(** The configuration [NewLogger] hands to [Build], lines 144 to 160. *)
Definition logger_config (zap : Zap) (level : Z) (logOptions : OptionsLogger)
  : zap_Config :=
  let cfg := NewProductionConfig zap in
  let encoding := cfg_Encoding cfg in
  let disableCaller := cfg_DisableCaller cfg in
  let encodeLevel := cfg_EncodeLevel cfg in
  if bool_decide (Format logOptions = "text") then
    {| cfg_Level := level;
       cfg_Encoding := "console";
       cfg_DisableCaller := true;
       cfg_DisableStacktrace := true;
       cfg_TimeKey := "timestamp";
       cfg_CallerKey := "";
       cfg_EncodeLevel := CapitalColorLevelEncoder;
       cfg_EncodeTime := ISO8601TimeEncoder |}
  else
    {| cfg_Level := level;
       cfg_Encoding := encoding;
       cfg_DisableCaller := disableCaller;
       cfg_DisableStacktrace := true;
       cfg_TimeKey := "timestamp";
       cfg_CallerKey := "";
       cfg_EncodeLevel := encodeLevel;
       cfg_EncodeTime :=
         if bool_decide (TimestampFormat logOptions = "ISO8601")
         then ISO8601TimeEncoder else EpochTimeEncoder |}.

(** [NewLogger]: the [*ZapLogger] (the [*zap.Logger] it wraps), or the
    error. *)
Definition NewLogger (zap : Zap) (options : list OptionLogger)
  : zap_Logger + goerror :=
  let logOptions := logger_options options in
  if bool_decide (Level logOptions = "none") then inl zap_NewNop
  else
    match ParseAtomicLevel zap (Level logOptions) with
    | inr err =>
        inr (ErrWrap (String.append "unknown log level: " (Level logOptions)) err)
    | inl level =>
        let cfg := logger_config zap level logOptions in
        match Build zap cfg with
        | Some err => inr err
        | None =>
            let log := zap_Built cfg [] in
            if bool_decide (Format logOptions = "json")
            then inl (zap_With [("build.version", build_Version zap);
                                ("build.commit", build_Commit zap)] log)
            else inl log
        end
    end.

(** [MustNewLogger]: the logger, or the error it panics with. *)
Definition MustNewLogger (zap : Zap) (logFormat logLevel logTimestampFormat : string)
  : zap_Logger + goerror :=
  NewLogger zap [WithFormat logFormat; WithLevel logLevel;
                 WithTimestampFormat logTimestampFormat].

(* ===================================================================== *)
(** ** More about the bounded reader *)
(* ===================================================================== *)

(** The call of the goroutine has returned. *)
Definition finished (p : pc) : bool :=
  match p with
  | Aborted _ | Returned _ => true
  | _ => false
  end.

(** The program points of a call that was never admitted. *)
Definition never_admitted (p : pc) : Prop :=
  match p with
  | AtSelect | Parked | AfterSelect (Some _) | Aborted _ => True
  | _ => False
  end.

(** The program points of a call that has been admitted. *)
Definition admitted (p : pc) : Prop :=
  match p with
  | AfterSelect None | InWrapped | AtRelease _ | Returned _ => True
  | _ => False
  end.

(** [ret'] is [ret] with some of the tuples of its iterator taken. *)
Definition consumed_from (ret ret' : read_return) : Prop :=
  rerr ret' = rerr ret ∧
  match rv ret with
  | Some (VIterator it) => ∃ rest, rv ret' = Some (VIterator rest) ∧ rest `suffix_of` it
  | v => rv ret' = v
  end.

(** The program points of a call whose wrapped reader has returned
    [ret]. *)
Definition passing (ret : read_return) (p : pc) : Prop :=
  p = AtRelease ret ∨ ∃ ret', p = Returned ret' ∧ consumed_from ret ret'.

(** The calls of the wrapped reader among the effects of goroutine [i]. *)
Definition is_call (e : effect) : bool :=
  match e with
  | CallWrapped _ => true
  | _ => false
  end.

Definition calls_of (i : nat) (tr : list (nat * effect)) : list effect :=
  List.filter is_call (effects_of i tr).

(* ===================================================================== *)
(** ** Scenarios *)
(* ===================================================================== *)

(** Concrete servers, collaborators and runs, used to exercise the
    statements below. *)
Module Scenario.

(** Defaults as in section 6 of the design document: depth 25, breadth
    100, a read limit of the largest [uint32], the cache off; the other
    values are arbitrary. *)
Definition cfg : serverconfig :=
  {| DefaultChangelogHorizonOffset := 0;
     DefaultResolveNodeLimit := 25;
     DefaultResolveNodeBreadthLimit := 100;
     DefaultListObjectsDeadline := 3000000000;
     DefaultListObjectsMaxResults := 1000;
     DefaultMaxConcurrentReadsForCheck := 4294967295;
     DefaultMaxConcurrentReadsForListObjects := 4294967295;
     DefaultMaxAuthorizationModelSizeInBytes := 262144;
     DefaultCheckQueryCacheEnable := false;
     DefaultCheckQueryCacheLimit := 10000;
     DefaultCheckQueryCacheTTL := 10000000000 |}.

(** Constructors of package [graph] that leave the delegate unset. *)
Definition no_delegate (_ : resolver_kind) (_ : ref) : option ref := None.

Definition new_server (opts : list OpenFGAServiceV1Option)
  : (Server * heap) + string :=
  NewServerWithOpts cfg no_delegate 0 0 0 "openfga.v1.OpenFGAService" opts.

Definition opts_plain : list OpenFGAServiceV1Option :=
  [WithDatastore 7].

Definition opts_cached : list OpenFGAServiceV1Option :=
  [WithDatastore 7; WithCheckQueryCacheEnabled true; WithCheckQueryCacheLimit 500].

Definition server_of (r : (Server * heap) + string) : Server :=
  match r with
  | inl (s, _) => s
  | inr _ => initial_server cfg 0 0 0 ""
  end.

Definition server : Server := server_of (new_server opts_plain).

Definition model : TypeSystem :=
  {| GetAuthorizationModelID := "01HVMMBCMGZNT3SED4Z17ECXCA" |}.

(** Collaborators that accept every request and tuple, resolve the
    typesystem to [ts] and the check to [resolution]. *)
Definition env (ts : TypeSystem + goerror)
    (resolution : ResolveCheckResponse + goerror) : Collaborators :=
  {| RequestIsValidatedFromContext := true;
     Validate := λ _, None;
     typesystemResolverFunc := λ _ _, ts;
     ValidateUserObjectRelation := λ _ _, None;
     ValidateTuple := λ _ _, None;
     ResolveCheck := λ _ _ _, resolution |}.

(** Scenario S5 of the design document: [Check(doc:1, a, user:x)]. *)
Definition request : CheckRequest :=
  {| req_StoreId := "01HVMMB8V4E5T9M4J0N2QJ4ZQK";
     req_TupleKey := {| tk_object := "doc:1"; tk_relation := "a"; tk_user := "user:x" |};
     req_ContextualTuples := [];
     req_AuthorizationModelId := "";
     req_Context := [] |}.

Definition cycle_response : ResolveCheckResponse :=
  {| Allowed := false;
     rr_ResolutionMetadata :=
       {| md_DatastoreQueryCount := 0; md_DispatchCount := 1;
          md_CycleDetected := true |} |}.

Definition condition_failure : goerror :=
  ErrWrap "failed to evaluate relationship condition 'cond': missing parameter"
          (ErrNew ErrEvaluationFailed).

(** A decorator of width one, as [WithMaxConcurrentReadsForCheck(1)]
    makes [Server.Check] build it. *)
Definition reader : BoundedConcurrencyTupleReader :=
  NewBoundedConcurrencyTupleReader 1.

Definition ctx_check (id : nat) : Context :=
  {| ctx_ident := id;
     rpc_Service := "openfga.v1.OpenFGAService";
     rpc_Method := "Check";
     ctx_span := id |}.

(** The tuples of scenario S3 of the design document. *)
Definition parent_tuple : TupleKey :=
  {| tk_object := "document:1"; tk_relation := "parent"; tk_user := "folder:x" |}.

Definition viewer_tuple : TupleKey :=
  {| tk_object := "folder:x"; tk_relation := "viewer"; tk_user := "user:alice" |}.

Definition two_tuples : list TupleKey := [parent_tuple; viewer_tuple].

Definition state_after (evs : list event) : state :=
  default initial_state (run reader evs).

Definition pc_after (evs : list event) (i : nat) : option pc :=
  g_pc <$> goroutines (state_after evs) !! i.

Definition goroutine_after (evs : list event) (i : nat) : goroutine :=
  default {| g_method := Read; g_ctx := ctx_check 0; g_start := 0; g_pc := AtSelect |}
          (goroutines (state_after evs) !! i).

(** One call is admitted and inside the wrapped reader, a second one is
    blocked behind it. *)
Definition one_reading_one_blocked : list event :=
  [ EvCall Read (ctx_check 0) 1000000;
    EvCall ReadUserTuple (ctx_check 1) 2000000;
    EvSelect 0 CaseSend;
    EvPark 1;
    EvRecord 0 3500000 ].

(** The deadline of the context has passed before the call is made. *)
Definition called_after_deadline : list event :=
  [ EvCancel 0 CtxDeadlineExceeded;
    EvCall Read (ctx_check 0) 1000000 ].

(** ... and the select runs the send all the same. *)
Definition admitted_after_deadline : list event :=
  called_after_deadline ++
  [ EvSelect 0 CaseSend;
    EvRecord 0 4000000;
    EvWrappedReturn 0 (iterator two_tuples None);
    EvRelease 0 None ].

(** A read whose wrapped reader has returned an iterator. *)
Definition read_at_release : list event :=
  [ EvCall Read (ctx_check 0) 0;
    EvSelect 0 CaseSend;
    EvRecord 0 2000000;
    EvWrappedReturn 0 (iterator two_tuples None) ].

(** Two reads, one after the other through the single slot, whose
    iterators are then consumed in turns. *)
Definition two_iterators_open : list event :=
  read_at_release ++
  [ EvRelease 0 None;
    EvCall ReadUsersetTuples (ctx_check 0) 5000000;
    EvSelect 1 CaseSend;
    EvRecord 1 5000000;
    EvWrappedReturn 1 (iterator two_tuples None);
    EvRelease 1 None;
    EvNext 0;
    EvNext 1 ].

End Scenario.

(** More concrete inputs. *)
Module Example.

Definition zap : Zap :=
  {| ParseAtomicLevel := λ text,
       if bool_decide (text = "debug") then inl (-1)%Z
       else if bool_decide (text = "info") then inl 0%Z
       else inr (ErrNew (ErrOther "unrecognized level"));
     NewProductionConfig :=
       {| cfg_Level := 0; cfg_Encoding := "json"; cfg_DisableCaller := false;
          cfg_DisableStacktrace := false; cfg_TimeKey := "ts";
          cfg_CallerKey := "caller"; cfg_EncodeLevel := ProductionLevelEncoder;
          cfg_EncodeTime := ProductionTimeEncoder |};
     Build := λ _, None;
     build_Version := "dev";
     build_Commit := "none" |}.

(** A list-objects query that fails on a condition. *)
Definition failing_query : ListObjectsCollaborators :=
  {| lo_Validate := λ _, None;
     NewListObjectsQuery := λ _, None;
     Execute := λ _ _ _, inr Scenario.condition_failure;
     ExecuteStreamed := λ _ _ _, inr Scenario.condition_failure |}.

Definition list_request : ListObjectsRequest :=
  {| lo_StoreId := "01HVMMB8V4E5T9M4J0N2QJ4ZQK";
     lo_AuthorizationModelId := "";
     lo_Type := "document";
     lo_Relation := "viewer";
     lo_User := "user:alice";
     lo_ContextualTuples := [];
     lo_Context := [] |}.

(** A [Check] request with three contextual tuples, of which the
    collaborators below reject the second and the third. *)
Definition bad_tuple : TupleKey :=
  {| tk_object := "document:1"; tk_relation := "nosuchrelation"; tk_user := "user:bob" |}.

Definition worse_tuple : TupleKey :=
  {| tk_object := "nosuchtype:1"; tk_relation := "viewer"; tk_user := "user:bob" |}.

Definition request_with_tuples : CheckRequest :=
  {| req_StoreId := "01HVMMB8V4E5T9M4J0N2QJ4ZQK";
     req_TupleKey := Scenario.viewer_tuple;
     req_ContextualTuples := [Scenario.parent_tuple; bad_tuple; worse_tuple];
     req_AuthorizationModelId := "";
     req_Context := [] |}.

Definition strict_env : Collaborators :=
  {| RequestIsValidatedFromContext := true;
     Validate := λ _, None;
     typesystemResolverFunc := λ _ _, inl Scenario.model;
     ValidateUserObjectRelation := λ _ _, None;
     ValidateTuple := λ _ tk,
       if bool_decide (tk_relation tk = "nosuchrelation")
       then Some (ErrNew (ErrOther "relation not found"))
       else if bool_decide (tk_object tk = "nosuchtype:1")
       then Some (ErrNew (ErrOther "type not found"))
       else None;
     ResolveCheck := λ _ _ _, inl Scenario.cycle_response |}.

Definition opts_limits : list OpenFGAServiceV1Option :=
  [ WithResolveNodeLimit 10;
    WithDatastore 7;
    WithMaxConcurrentReadsForCheck 3;
    WithRequestDurationByQueryHistogramBuckets [200%N; 50%N; 100%N];
    WithResolveNodeLimit 40;
    WithDatastore 9 ].

(** Three calls through the reader of width one that all have returned:
    one read to the end, one aborted after blocking, one admitted after
    the first released. *)
Definition all_returned : list event :=
  [ EvCall ReadUserTuple (Scenario.ctx_check 0) 0;
    EvCall Read (Scenario.ctx_check 1) 0;
    EvCall Read (Scenario.ctx_check 2) 0;
    EvSelect 0 CaseSend;
    EvPark 1;
    EvPark 2;
    EvRecord 0 1000000;
    EvCancel 1 CtxCanceled;
    EvRecord 1 2000000;
    EvWrappedReturn 0 {| rv := Some (VTuple Scenario.viewer_tuple); rerr := None |};
    EvRelease 0 (Some 2);
    EvRecord 2 3000000;
    EvWrappedReturn 2 (iterator Scenario.two_tuples None);
    EvRelease 2 None ].

(** A reader of width zero with one call that blocks and is cancelled. *)
Definition zero_width_run : list event :=
  [ EvCall Read (Scenario.ctx_check 0) 0;
    EvPark 0;
    EvCancel 0 CtxDeadlineExceeded;
    EvRecord 0 5000000000 ].

Definition state_of (b : BoundedConcurrencyTupleReader) (evs : list event) : state :=
  default initial_state (run b evs).

Definition goroutine_of (b : BoundedConcurrencyTupleReader) (evs : list event)
    (i : nat) : goroutine :=
  default {| g_method := Read; g_ctx := Scenario.ctx_check 0; g_start := 0;
             g_pc := AtSelect |}
          (goroutines (state_of b evs) !! i).

(** A read that is inside the wrapped reader, and a read that has just
    been admitted. *)
Definition read_in_wrapped : list event :=
  [ EvCall Read (Scenario.ctx_check 0) 0;
    EvSelect 0 CaseSend;
    EvRecord 0 2000000 ].

Definition read_admitted : list event :=
  [ EvCall Read (Scenario.ctx_check 0) 0;
    EvSelect 0 CaseSend ].

Definition cancelled_after_admission : list event :=
  [ EvCancel 0 CtxCanceled;
    EvRecord 0 2000000 ].

Definition waiting_goroutine : goroutine :=
  {| g_method := Read; g_ctx := Scenario.ctx_check 0; g_start := 1000000;
     g_pc := AfterSelect None |}.

End Example.

(* ===================================================================== *)
(** * Properties of the server *)
(* ===================================================================== *)

Section ServerProperties.

Implicit Types (s : Server) (env : Collaborators) (req : CheckRequest).
Implicit Types (err : goerror).

(** Once the handler has reached the resolver, what it returns is
    decided by the resolution alone. *)
Lemma Server_Check_after_resolution s env req resolution :
  resolution_returns s env req resolution →
  Server_Check s env req =
    match resolution with
    | inr err =>
        if errors_Is err ErrResolutionDepthExceeded || errors_Is err ErrCycleDetected
        then Err AuthorizationModelResolutionTooComplex
        else if errors_Is err ErrEvaluationFailed then Err (ValidationError err)
        else Err (HandleError "" err)
    | inl resp => Ok {| resp_Allowed := Allowed resp |}
    end.
Proof.
  intros (typesys & resolver & Hval & Hts & Huor & Hctx & Hres & Hrc).
  unfold Server_Check.
  rewrite Hval, Hts, Huor, Hctx, Hres, Hrc.
  reflexivity.
Qed.

(** A failed resolution never produces a decision. *)
Lemma Server_Check_error_no_decision s env req err :
  resolution_returns s env req (inr err) →
  ∃ e, Server_Check s env req = Err e.
Proof.
  intros H. rewrite (Server_Check_after_resolution _ _ _ _ H).
  destruct (_ || _); [eauto |].
  destruct (errors_Is err ErrEvaluationFailed); eauto.
Qed.

Lemma scenario_resolution_returns ts resolution :
  resolution_returns Scenario.server (Scenario.env (inl ts) resolution)
    Scenario.request resolution.
Proof. exists ts, 0. repeat split; reflexivity. Qed.

End ServerProperties.

(** C3.  The resolver topology built by [NewServerWithOpts]: the server's
    entry point [checkResolver] is the cycle-detection resolver; with the
    query cache enabled cycle detection delegates to the cached resolver
    and the cached resolver to the LocalChecker, otherwise cycle detection
    delegates to the LocalChecker directly; in both configurations the
    LocalChecker's delegate is the cycle-detection resolver, so that a
    recursive dispatch from the LocalChecker passes through cycle detection
    and, when enabled, the cache before it reaches the LocalChecker again. *)
Theorem resolver_topology
    (cfg : serverconfig) (initial_delegate : resolver_kind → ref → option ref)
    (lg en tr : handle) (name : string)
    (opts : list OpenFGAServiceV1Option) (s : Server) (h : heap) :
  NewServerWithOpts cfg initial_delegate lg en tr name opts = inl (s, h) →
  ∃ cycleDetection localChecker,
    checkResolver s = Some cycleDetection ∧
    kind_at h cycleDetection = Some KCycleDetection ∧
    kind_at h localChecker = Some KLocal ∧
    delegate_at h localChecker = Some cycleDetection ∧
    if checkQueryCacheEnabled s then
      ∃ cached,
        kind_at h cached = Some KCached ∧
        delegate_at h cycleDetection = Some cached ∧
        delegate_at h cached = Some localChecker ∧
        delegate_chain h 4 localChecker = [KLocal; KCycleDetection; KCached; KLocal]
    else
      delegate_at h cycleDetection = Some localChecker ∧
      delegate_chain h 3 localChecker = [KLocal; KCycleDetection; KLocal].
Proof.
  unfold NewServerWithOpts.
  generalize (apply_options opts (initial_server cfg lg en tr name)).
  intros [lg' ds en' tr' rnl rnb cho lod lom mrl mrc mas ex sn tsr cqe cql cqt ccl cr bk].
  unfold wire_resolvers; simpl.
  destruct cqe; simpl; destruct ds as [d|]; simpl; try discriminate;
    case_bool_decide; try discriminate; intros [= <- <-]; simpl.
  - exists 0, 1. repeat split. exists 2. repeat split.
  - exists 0, 1. repeat split.
Qed.

Lemma resolver_topology_witness :
  ∃ cycleDetection localChecker cached s h,
    Scenario.new_server Scenario.opts_cached = inl (s, h) ∧
    checkResolver s = Some cycleDetection ∧
    delegate_at h cycleDetection = Some cached ∧
    delegate_at h cached = Some localChecker ∧
    delegate_at h localChecker = Some cycleDetection.
Proof.
  destruct (Scenario.new_server Scenario.opts_cached) as [[s h]|msg] eqn:E;
    [| discriminate E].
  destruct (resolver_topology _ _ _ _ _ _ _ _ _ E)
    as (cyc & loc & Hentry & _ & _ & Hloc & Hrest).
  assert (Hen : checkQueryCacheEnabled s = true)
    by (vm_compute in E; injection E as <- _; reflexivity).
  rewrite Hen in Hrest. destruct Hrest as (cch & _ & Hcyc & Hcch & _).
  exists cyc, loc, cch, s, h. auto.
Defined.

(** C4.  When the resolution of a Check fails with an error that is
    [graph.ErrResolutionDepthExceeded], [Server.Check] returns
    [serverErrors.AuthorizationModelResolutionTooComplex] and no response. *)
Theorem depth_exceeded_is_too_complex
    (s : Server) (env : Collaborators) (req : CheckRequest) (err : goerror) :
  resolution_returns s env req (inr err) →
  errors_Is err ErrResolutionDepthExceeded = true →
  Server_Check s env req = Err AuthorizationModelResolutionTooComplex.
Proof.
  intros Hres Hdepth.
  rewrite (Server_Check_after_resolution _ _ _ _ Hres), Hdepth.
  reflexivity.
Qed.

Lemma depth_exceeded_is_too_complex_witness :
  Server_Check Scenario.server
    (Scenario.env (inl Scenario.model) (inr (ErrNew ErrResolutionDepthExceeded)))
    Scenario.request
  = Err AuthorizationModelResolutionTooComplex.
Proof.
  apply (depth_exceeded_is_too_complex _ _ _ (ErrNew ErrResolutionDepthExceeded)).
  - apply scenario_resolution_returns.
  - reflexivity.
Defined.



(** The depth and cycle test comes first: an error tree that holds both a
    depth error and a condition failure is answered as too complex. *)
Lemma depth_error_takes_precedence
    (s : Server) (env : Collaborators) (req : CheckRequest) (err : goerror) :
  resolution_returns s env req (inr err) →
  errors_Is err ErrResolutionDepthExceeded = true →
  errors_Is err ErrEvaluationFailed = true →
  Server_Check s env req ≠ Err (ValidationError err).
Proof.
  intros Hres Hdepth _.
  rewrite (Server_Check_after_resolution _ _ _ _ Hres), Hdepth.
  discriminate.
Qed.




(** C8.  When the typesystem resolver fails with an error that is
    [typesystem.ErrModelNotFound], [resolveTypesystem] returns
    [LatestAuthorizationModelNotFound(storeID)] if the request carried no
    model id and [AuthorizationModelNotFound(modelID)] if it carried one,
    so that the two are told apart exactly by the emptiness of the model
    id; when it fails with an error that is [typesystem.ErrInvalidModel]
    (and not a not-found error, which is tested first) the function
    returns [ValidationError(err)]. *)
Theorem resolveTypesystem_not_found_and_invalid
    (env : Collaborators) (storeID modelID : string) (err : goerror) :
  typesystemResolverFunc env storeID modelID = inr err →
  (errors_Is err ErrModelNotFound = true →
     (modelID = "" →
        resolveTypesystem env storeID modelID
        = inr (LatestAuthorizationModelNotFound storeID)) ∧
     (modelID ≠ "" →
        resolveTypesystem env storeID modelID
        = inr (AuthorizationModelNotFound modelID)) ∧
     ((∃ st, resolveTypesystem env storeID modelID
             = inr (LatestAuthorizationModelNotFound st)) ↔ modelID = "") ∧
     ((∃ m, resolveTypesystem env storeID modelID
            = inr (AuthorizationModelNotFound m)) ↔ modelID ≠ "")) ∧
  (errors_Is err ErrModelNotFound = false →
   errors_Is err ErrInvalidModel = true →
     resolveTypesystem env storeID modelID = inr (ValidationError err)).
Proof.
  intros Hres. unfold resolveTypesystem. rewrite Hres. split.
  - intros ->. case_bool_decide as Hid.
    + repeat split; try done; eauto.
      intros [m Hm]. discriminate Hm.
    + repeat split; try done; eauto.
      intros [st Hst]. discriminate Hst.
  - intros -> ->. reflexivity.
Qed.

Lemma resolveTypesystem_not_found_and_invalid_witness :
  resolveTypesystem
    (Scenario.env (inr (ErrNew ErrModelNotFound)) (inl Scenario.cycle_response))
    "01HVMMB8V4E5T9M4J0N2QJ4ZQK" ""
  = inr (LatestAuthorizationModelNotFound "01HVMMB8V4E5T9M4J0N2QJ4ZQK").
Proof.
  apply (resolveTypesystem_not_found_and_invalid _ _ _ (ErrNew ErrModelNotFound)).
  - reflexivity.
  - reflexivity.
  - reflexivity.
Defined.

(** Every handler that resolves a typesystem returns the error of
    [resolveTypesystem] as it is; here for [Server.Check]. *)
Lemma Server_Check_returns_typesystem_error
    (s : Server) (env : Collaborators) (req : CheckRequest) (e : server_error) :
  (if RequestIsValidatedFromContext env then None else Validate env req) = None →
  resolveTypesystem env (req_StoreId req) (req_AuthorizationModelId req) = inr e →
  Server_Check s env req = Err e.
Proof. intros Hval Hts. unfold Server_Check. rewrite Hval, Hts. reflexivity. Qed.

(* ===================================================================== *)
(** * Properties of the bounded reader *)
(* ===================================================================== *)

(** ** Counting goroutines by program point *)

Section Counting.

Implicit Types (f : pc → bool) (gs : list goroutine) (g : goroutine).

Lemma count_pc_nil f : count_pc f [] = 0.
Proof. reflexivity. Qed.

Lemma count_pc_cons f g gs :
  count_pc f (g :: gs) = weight f g + count_pc f gs.
Proof. reflexivity. Qed.

Lemma count_pc_app f gs1 gs2 :
  count_pc f (gs1 ++ gs2) = count_pc f gs1 + count_pc f gs2.
Proof.
  induction gs1 as [|g gs1 IH]; [reflexivity |].
  rewrite <- app_comm_cons, !count_pc_cons, IH. lia.
Qed.

(** Replacing goroutine [i] moves its weight and nothing else. *)
Lemma count_pc_insert f gs i g g' :
  gs !! i = Some g →
  count_pc f (<[i := g']> gs) + weight f g = count_pc f gs + weight f g'.
Proof.
  revert i. induction gs as [|g0 gs IH]; intros i Hi; [discriminate Hi |].
  destruct i as [|i]; simpl in *.
  - injection Hi as ->. rewrite !count_pc_cons. lia.
  - rewrite !count_pc_cons. specialize (IH _ Hi). lia.
Qed.

Lemma count_pc_fmap f (h : goroutine → goroutine) gs :
  (∀ g, f (g_pc (h g)) = f (g_pc g)) →
  count_pc f (h <$> gs) = count_pc f gs.
Proof.
  intros Hh. induction gs as [|g gs IH]; [reflexivity |].
  rewrite fmap_cons, !count_pc_cons, IH. unfold weight. rewrite Hh. reflexivity.
Qed.

Lemma count_pc_le f1 f2 gs :
  (∀ p, f1 p = true → f2 p = true) →
  count_pc f1 gs ≤ count_pc f2 gs.
Proof.
  intros Hf. induction gs as [|g gs IH]; [reflexivity |].
  rewrite !count_pc_cons. unfold weight.
  destruct (f1 (g_pc g)) eqn:E1; [rewrite (Hf _ E1) |
    destruct (f2 (g_pc g))]; lia.
Qed.

(** A goroutine that [f] selects is counted. *)
Lemma count_pc_pos f gs i g :
  gs !! i = Some g → f (g_pc g) = true → 0 < count_pc f gs.
Proof.
  revert i. induction gs as [|g0 gs IH]; intros i Hi Hf; [discriminate Hi |].
  rewrite count_pc_cons. destruct i as [|i]; simpl in Hi.
  - injection Hi as ->. unfold weight. rewrite Hf. lia.
  - specialize (IH _ Hi Hf). lia.
Qed.

End Counting.

(** ** Runs *)

Lemma run_from_app b s evs1 evs2 :
  run_from b s (evs1 ++ evs2) =
  match run_from b s evs1 with
  | Some s' => run_from b s' evs2
  | None => None
  end.
Proof.
  revert s. induction evs1 as [|ev evs1 IH]; intros s; simpl; [reflexivity |].
  destruct (exec b s ev); [apply IH | reflexivity].
Qed.

(** A property that holds initially and that every action preserves holds
    after every run. *)
Lemma run_from_invariant b (P : state → Prop) :
  (∀ s ev s', P s → exec b s ev = Some s' → P s') →
  ∀ evs s s', P s → run_from b s evs = Some s' → P s'.
Proof.
  intros Hstep evs. induction evs as [|ev evs IH]; intros s s' HP Hrun; simpl in Hrun.
  - injection Hrun as <-. exact HP.
  - destruct (exec b s ev) as [s1|] eqn:E; [| discriminate Hrun].
    exact (IH _ _ (Hstep _ _ _ HP E) Hrun).
Qed.

(** ** The limiter counts the goroutines between send and receive *)

Lemma slots_inv_initial b : slots_inv b initial_state.
Proof. split; simpl; [reflexivity | lia]. Qed.

Lemma holds_slot_wake_cancelled c e g :
  holds_slot (g_pc (wake_cancelled c e g)) = holds_slot (g_pc g).
Proof.
  unfold wake_cancelled, is_parked.
  destruct (g_pc g) eqn:E; simpl; rewrite ?E; try reflexivity.
  case_bool_decide; simpl; rewrite ?E; reflexivity.
Qed.

Ltac exec_cases H :=
  repeat match type of H with
  | Some _ = Some _ => injection H as <-
  | None = Some _ => discriminate H
  | context [match ?x with _ => _ end] =>
      let E := fresh "E" in destruct x eqn:E; simpl in H
  | context [if ?x then _ else _] =>
      let E := fresh "E" in destruct x eqn:E; simpl in H
  end.

Lemma count_pc_set_pc f gs i g p :
  gs !! i = Some g →
  count_pc f (<[i := set_pc p g]> gs) + (if f (g_pc g) then 1 else 0)
  = count_pc f gs + (if f p then 1 else 0).
Proof. intros Hi. exact (count_pc_insert f gs i g (set_pc p g) Hi). Qed.

(** Two goroutines at different program points are different
    goroutines. *)
Lemma lookup_pc_ne (gs : list goroutine) i j gi gj :
  gs !! i = Some gi → gs !! j = Some gj → g_pc gi ≠ g_pc gj → i ≠ j.
Proof. intros Hi Hj Hne ->. rewrite Hi in Hj. injection Hj as ->. done. Qed.

Ltac count_set_pc f :=
  match goal with
  | Hg : ?gs !! ?i = Some ?g, Hpc : g_pc ?g = _
    |- context [<[?i := set_pc ?p ?g]> ?gs] =>
      let H := fresh "Hcnt" in
      pose proof (count_pc_set_pc f gs i g p Hg) as H;
      rewrite Hpc in H; simpl in H
  end.

Lemma slots_inv_exec b s ev s' :
  slots_inv b s → exec b s ev = Some s' → slots_inv b s'.
Proof.
  intros [Hcount Hcap] Hexec. unfold slots_inv.
  destruct ev as [m ctx now | c e | i c | i | i now | i ret | i wake | i];
    simpl in Hexec; exec_cases Hexec; simpl.
  - (* EvCall *)
    rewrite count_pc_app, count_pc_cons, count_pc_nil.
    unfold weight; simpl. split; lia.
  - (* EvCancel, already done *)
    done.
  - (* EvCancel *)
    rewrite count_pc_fmap by apply holds_slot_wake_cancelled. done.
  - (* select: Done *)
    count_set_pc holds_slot. split; lia.
  - (* select: send *)
    match goal with
    | H : bool_decide (_ < _) = true |- _ => apply bool_decide_eq_true in H
    end.
    count_set_pc holds_slot. split; lia.
  - (* park *)
    count_set_pc holds_slot. split; lia.
  - (* record, aborting *)
    count_set_pc holds_slot. split; lia.
  - (* record, admitted *)
    count_set_pc holds_slot. split; lia.
  - (* wrapped returns *)
    count_set_pc holds_slot. split; lia.
  - (* release, waking a blocked sender *)
    match goal with
    | Hi : goroutines s !! i = Some ?gi, Hpi : g_pc ?gi = AtRelease _,
      Hk : goroutines s !! ?k = Some ?gk, Hpk : is_parked ?gk = true |- _ =>
        unfold is_parked in Hpk;
        destruct (g_pc gk) eqn:Epk; try discriminate Hpk;
        assert (i ≠ k) as Hne
          by (eapply lookup_pc_ne; [exact Hi | exact Hk | rewrite Hpi, Epk; discriminate]);
        pose proof (count_pc_set_pc holds_slot _ _ _ (AfterSelect None) Hk) as H1;
        rewrite Epk in H1; simpl in H1;
        assert (<[k := set_pc (AfterSelect None) gk]> (goroutines s) !! i = Some gi) as Hi'
          by (rewrite list_lookup_insert_ne by done; exact Hi);
        pose proof (count_pc_set_pc holds_slot _ _ _ (Returned ret) Hi') as H2;
        rewrite Hpi in H2; simpl in H2
    end.
    split; lia.
  - (* release *)
    count_set_pc holds_slot. split; lia.
  - (* next *)
    count_set_pc holds_slot. split; lia.
Qed.

(** ** The control flow of one goroutine *)

Lemma set_pc_same g : set_pc (g_pc g) g = g.
Proof. destruct g; reflexivity. Qed.

Lemma wake_cancelled_cases c e g :
  wake_cancelled c e g = g ∨
  (g_pc g = Parked ∧ ctx_ident (g_ctx g) = c ∧
   wake_cancelled c e g = set_pc (AfterSelect (Some e)) g).
Proof.
  unfold wake_cancelled, is_parked.
  destruct (g_pc g) eqn:E; simpl; auto.
  case_bool_decide; auto.
Qed.

Ltac moved_or_other s i j g Hi Hlt Hstay :=
  let Hne := fresh "Hne" in
  destruct (decide (j = i)) as [? | Hne];
  [ subst j;
    match goal with
    | H : goroutines s !! i = Some _ |- _ => rewrite Hi in H; injection H as <-
    end;
    rewrite list_lookup_insert_eq by (rewrite ?length_insert; exact Hlt);
    eexists; split; [reflexivity |];
    right;
    match goal with
    | H : g_pc g = _ |- _ => rewrite H
    end; constructor
  | rewrite list_lookup_insert_ne by exact Hne;
    try (exists (g_pc g); split; [exact Hstay | left; reflexivity]) ].

Ltac woken_or_other s i g Hi Hlt Hstay :=
  match goal with
  | Hk : goroutines s !! ?k = Some ?gk, Hpk : is_parked ?gk = true |- _ =>
      let Hnk := fresh "Hnk" in
      destruct (decide (k = i)) as [? | Hnk];
      [ subst k; rewrite Hi in Hk; injection Hk as <-;
        rewrite list_lookup_insert_eq by exact Hlt;
        exists (AfterSelect None); split; [reflexivity |];
        right; unfold is_parked in Hpk;
        destruct (g_pc g); try discriminate Hpk; constructor
      | rewrite list_lookup_insert_ne by exact Hnk;
        exists (g_pc g); split; [exact Hstay | left; reflexivity] ]
  end.

(** Every action leaves a goroutine where it is or moves it along one
    edge of the control flow of the method body; it never changes the
    method, the context or [start]. *)
Lemma exec_goroutine b s ev s' i g :
  exec b s ev = Some s' →
  goroutines s !! i = Some g →
  ∃ p, goroutines s' !! i = Some (set_pc p g) ∧ (p = g_pc g ∨ pc_succ (g_pc g) p).
Proof.
  intros Hexec Hi.
  assert (Hstay : goroutines s !! i = Some (set_pc (g_pc g) g))
    by (rewrite set_pc_same; exact Hi).
  pose proof (lookup_lt_Some _ _ _ Hi) as Hlt.
  destruct ev as [m ctx now | c e | j c | j | j now | j ret | j wake | j];
    simpl in Hexec; exec_cases Hexec; simpl.
  all: try (exists (g_pc g); split; [exact Hstay | left; reflexivity]).
  all: try (moved_or_other s i j g Hi Hlt Hstay).
  - (* EvCall *)
    exists (g_pc g). split; [| left; reflexivity].
    rewrite set_pc_same. apply lookup_app_l_Some, Hi.
  - (* EvCancel *)
    rewrite list_lookup_fmap, Hi. simpl.
    destruct (wake_cancelled_cases c e g) as [-> | (Hp & _ & ->)].
    + exists (g_pc g). rewrite set_pc_same. auto.
    + exists (AfterSelect (Some e)). split; [reflexivity |].
      right. rewrite Hp. constructor.
  - (* release that wakes a blocked sender: the other goroutines *)
    woken_or_other s i g Hi Hlt Hstay.
Qed.

(** ** What each goroutine has recorded *)

Lemma effects_of_app i tr1 tr2 :
  effects_of i (tr1 ++ tr2) = effects_of i tr1 ++ effects_of i tr2.
Proof. apply omap_app. Qed.

Lemma effects_of_own i es : effects_of i ((λ e, (i, e)) <$> es) = es.
Proof.
  induction es as [|e es IH]; [reflexivity |].
  unfold effects_of in *. simpl. rewrite bool_decide_eq_true_2 by reflexivity.
  f_equal. exact IH.
Qed.

Lemma effects_of_other i j es : j ≠ i → effects_of i ((λ e, (j, e)) <$> es) = [].
Proof.
  intros Hne. induction es as [|e es IH]; [reflexivity |].
  unfold effects_of in *. simpl. rewrite bool_decide_eq_false_2 by exact Hne.
  exact IH.
Qed.

Lemma effects_of_fresh n (tr : list (nat * effect)) :
  (∀ j e, (j, e) ∈ tr → j < n) → effects_of n tr = [].
Proof.
  induction tr as [|[j e] tr IH]; intros Hb; [reflexivity |].
  unfold effects_of in *. simpl.
  rewrite bool_decide_eq_false_2.
  - apply IH. intros j' e' Hin. apply (Hb j' e'). right. exact Hin.
  - assert (j < n) by (apply (Hb j e); left). lia.
Qed.

Lemma expected_effects_set_pc g p es :
  expected_effects (set_pc p g) es =
  match p with
  | AtSelect | Parked | AfterSelect _ => es = []
  | Aborted _ => ∃ now, es = recording g now
  | InWrapped | AtRelease _ | Returned _ =>
      ∃ now, es = recording g now ++ [CallWrapped (g_method g)]
  end.
Proof. destruct p; reflexivity. Qed.

Lemma effects_inv_initial : effects_inv initial_state.
Proof.
  split.
  - intros i g Hi. discriminate Hi.
  - intros j e Hin. inversion Hin.
Qed.

(** A goroutine moves to a program point that expects what it has
    recorded so far; the trace is as it was. *)
Lemma effects_on_move gs tr i g p :
  effects_on gs tr →
  gs !! i = Some g →
  (∀ es, expected_effects g es → expected_effects (set_pc p g) es) →
  effects_on (<[i := set_pc p g]> gs) tr.
Proof.
  intros [Hexp Hb] Hi Hp. split.
  - intros j gj Hj. destruct (decide (i = j)) as [<- | Hne].
    + rewrite list_lookup_insert_eq in Hj by (eapply lookup_lt_Some, Hi).
      injection Hj as <-. apply Hp, Hexp, Hi.
    + rewrite list_lookup_insert_ne in Hj by exact Hne. apply Hexp, Hj.
  - intros j e Hin. rewrite length_insert. eapply Hb, Hin.
Qed.

(** A goroutine records [es] and moves to a program point that expects
    what it has recorded by then. *)
Lemma effects_on_record gs tr i g p es :
  effects_on gs tr →
  gs !! i = Some g →
  (∀ es0, expected_effects g es0 → expected_effects (set_pc p g) (es0 ++ es)) →
  effects_on (<[i := set_pc p g]> gs) (tr ++ ((λ e, (i, e)) <$> es)).
Proof.
  intros [Hexp Hb] Hi Hp.
  pose proof (lookup_lt_Some _ _ _ Hi) as Hlt. split.
  - intros j gj Hj. rewrite effects_of_app.
    destruct (decide (i = j)) as [<- | Hne].
    + rewrite list_lookup_insert_eq in Hj by exact Hlt.
      injection Hj as <-. rewrite effects_of_own. apply Hp, Hexp, Hi.
    + rewrite list_lookup_insert_ne in Hj by exact Hne.
      rewrite effects_of_other, app_nil_r by exact Hne. apply Hexp, Hj.
  - intros j e Hin. rewrite length_insert.
    apply elem_of_app in Hin as [Hin | Hin]; [eapply Hb, Hin |].
    apply list_elem_of_fmap in Hin as (e' & [= -> ->] & _). exact Hlt.
Qed.

Ltac effects_move :=
  match goal with
  | Hinv : effects_on ?gs ?tr, Hg : ?gs !! ?i = Some ?g, Hpc : g_pc ?g = _
    |- effects_on (<[?i := set_pc ?p ?g]> ?gs) ?tr =>
      apply (effects_on_move gs tr i g p Hinv Hg);
      let es := fresh "es" in
      intros es; rewrite expected_effects_set_pc;
      unfold expected_effects; rewrite Hpc; trivial
  end.

Lemma effects_inv_exec b s ev s' :
  effects_inv s → exec b s ev = Some s' → effects_inv s'.
Proof.
  unfold effects_inv. intros Hinv Hexec.
  destruct ev as [m ctx now | c e | i c | i | i now | i ret | i wake | i];
    simpl in Hexec; exec_cases Hexec; simpl.
  all: try assumption.
  all: try effects_move.
  - (* EvCall *)
    destruct Hinv as [Hexp Hb]. split.
    + intros i g Hi. apply lookup_app_Some in Hi as [Hi | [Hge Hi]].
      * apply Hexp, Hi.
      * destruct (i - length (goroutines s)) as [|k] eqn:Ek; [| destruct k; discriminate Hi].
        injection Hi as <-.
        assert (i = length (goroutines s)) as -> by lia.
        unfold expected_effects; simpl. apply effects_of_fresh, Hb.
    + intros j e Hin. rewrite length_app. simpl. specialize (Hb _ _ Hin). lia.
  - (* EvCancel *)
    destruct Hinv as [Hexp Hb]. split.
    + intros i g Hi. rewrite list_lookup_fmap in Hi.
      destruct (goroutines s !! i) as [g0|] eqn:E0; [| discriminate Hi].
      injection Hi as <-. specialize (Hexp _ _ E0).
      destruct (wake_cancelled_cases c e g0) as [-> | (Hp & _ & ->)]; [exact Hexp |].
      rewrite expected_effects_set_pc. unfold expected_effects in Hexp.
      rewrite Hp in Hexp. exact Hexp.
    + intros j e' Hin. rewrite length_fmap. eapply Hb, Hin.
  - (* record, aborting *)
    match goal with
    | Hg : goroutines s !! i = Some ?g, Hpc : g_pc ?g = _ |- _ =>
        apply (effects_on_record _ _ i g _ (recording g now) Hinv Hg);
        intros es0; rewrite expected_effects_set_pc;
        unfold expected_effects; rewrite Hpc; intros ->; exists now; reflexivity
    end.
  - (* record, admitted *)
    match goal with
    | Hg : goroutines s !! i = Some ?g, Hpc : g_pc ?g = _ |- _ =>
        apply (effects_on_record _ _ i g _
                 (recording g now ++ [CallWrapped (g_method g)]) Hinv Hg);
        intros es0; rewrite expected_effects_set_pc;
        unfold expected_effects; rewrite Hpc; intros ->; exists now; reflexivity
    end.
  - (* release that wakes a blocked sender *)
    match goal with
    | Hi : goroutines s !! i = Some ?gi, Hpi : g_pc ?gi = AtRelease _,
      Hk : goroutines s !! ?k = Some ?gk, Hpk : is_parked ?gk = true |- _ =>
        unfold is_parked in Hpk;
        destruct (g_pc gk) eqn:Epk; try discriminate Hpk;
        assert (i ≠ k) as Hne
          by (eapply lookup_pc_ne; [exact Hi | exact Hk | rewrite Hpi, Epk; discriminate]);
        apply effects_on_move;
        [ apply effects_on_move; [exact Hinv | exact Hk |];
          intros es; rewrite expected_effects_set_pc;
          unfold expected_effects; rewrite Epk; trivial
        | rewrite list_lookup_insert_ne by done; exact Hi
        | intros es; rewrite expected_effects_set_pc;
          unfold expected_effects; rewrite Hpi; trivial ]
    end.
Qed.

(** ** Reachable states *)

Lemma slots_inv_run b evs s : run b evs = Some s → slots_inv b s.
Proof.
  apply (run_from_invariant b (slots_inv b)); [| apply slots_inv_initial].
  intros ? ? ?. apply slots_inv_exec.
Qed.

Lemma effects_inv_run b evs s : run b evs = Some s → effects_inv s.
Proof.
  apply (run_from_invariant b effects_inv); [| apply effects_inv_initial].
  intros ? ? ?. apply effects_inv_exec.
Qed.

Lemma run_extend b evs s evs' s' :
  run b evs = Some s → run_from b s evs' = Some s' → run b (evs ++ evs') = Some s'.
Proof. unfold run. intros H1 H2. rewrite run_from_app, H1. exact H2. Qed.

Lemma run_from_one b s ev s' : exec b s ev = Some s' → run_from b s [ev] = Some s'.
Proof. intros H. unfold run_from. rewrite H. reflexivity. Qed.

(** The deferred receive finds a token in the buffer. *)
Lemma release_never_blocks b evs s i g ret :
  run b evs = Some s →
  goroutines s !! i = Some g →
  g_pc g = AtRelease ret →
  0 < limiter s.
Proof.
  intros Hrun Hi Hpc. destruct (slots_inv_run _ _ _ Hrun) as [<- _].
  apply (count_pc_pos _ _ i g Hi). rewrite Hpc. reflexivity.
Qed.

Lemma set_pc_set_pc p q g : set_pc p (set_pc q g) = set_pc p g.
Proof. reflexivity. Qed.

(** Along a run a goroutine stays within any set of program points that
    is closed under the control flow. *)
Lemma run_from_goroutine b (Q : pc → Prop) :
  (∀ p p', Q p → pc_succ p p' → Q p') →
  ∀ evs s s' i g,
    run_from b s evs = Some s' →
    goroutines s !! i = Some g →
    Q (g_pc g) →
    ∃ p, goroutines s' !! i = Some (set_pc p g) ∧ Q p.
Proof.
  intros Hclosed evs. induction evs as [|ev evs IH]; intros s s' i g Hrun Hi HQ;
    simpl in Hrun.
  - injection Hrun as <-. exists (g_pc g). rewrite set_pc_same. auto.
  - destruct (exec b s ev) as [s1|] eqn:E; [| discriminate Hrun].
    destruct (exec_goroutine _ _ _ _ _ _ E Hi) as (p1 & Hi1 & Hp1).
    assert (HQ1 : Q (g_pc (set_pc p1 g))).
    { simpl. destruct Hp1 as [-> | Hs]; [exact HQ | exact (Hclosed _ _ HQ Hs)]. }
    destruct (IH _ _ _ _ Hrun Hi1 HQ1) as (p & Hp & HQp).
    exists p. rewrite set_pc_set_pc in Hp. auto.
Qed.

(** C1.  For every limit [N] and every run (any number of calls of the
    four read methods, any interleaving of their steps, any cancellations)
    the number of goroutines inside the wrapped reader is at most the
    number of tokens in the limiter, which is the number of goroutines
    between their send and their deferred receive, and is at most [N]. *)
Theorem at_most_N_concurrent_reads (N : N) (evs : list event) (s : state) :
  run (NewBoundedConcurrencyTupleReader N) evs = Some s →
  count_pc in_wrapped (goroutines s) ≤ N.to_nat N ∧
  count_pc in_wrapped (goroutines s) ≤ limiter s ∧
  limiter s = count_pc holds_slot (goroutines s) ∧
  limiter s ≤ N.to_nat N.
Proof.
  intros Hrun. destruct (slots_inv_run _ _ _ Hrun) as [Hcount Hcap].
  simpl in Hcap.
  assert (count_pc in_wrapped (goroutines s) ≤ count_pc holds_slot (goroutines s))
    by (apply count_pc_le; intros [] ?; done).
  repeat split; lia.
Qed.


(** ** Blocked goroutines *)

Lemma parked_inv_initial : parked_inv initial_state.
Proof. intros i g Hi. discriminate Hi. Qed.

Ltac parked_moved_or_other s i j Hinv Hi Hp :=
  let Hne := fresh "Hne" in
  destruct (decide (j = i)) as [? | Hne];
  [ subst j;
    rewrite list_lookup_insert_eq in Hi
      by (rewrite ?length_insert; eapply lookup_lt_Some; eassumption);
    injection Hi as <-; simpl in Hp; try discriminate Hp
  | rewrite list_lookup_insert_ne in Hi by exact Hne ].

Lemma parked_inv_exec b s ev s' :
  parked_inv s → exec b s ev = Some s' → parked_inv s'.
Proof.
  intros Hinv Hexec i g' Hi Hp.
  destruct ev as [m ctx now | c e | j c | j | j now | j ret | j wake | j];
    simpl in Hexec; exec_cases Hexec; simpl in *.
  all: try (exact (Hinv _ _ Hi Hp)).
  all: try (parked_moved_or_other s i j Hinv Hi Hp; try (exact (Hinv _ _ Hi Hp))).
  - (* EvCall *)
    apply lookup_app_Some in Hi as [Hi | [_ Hi]]; [exact (Hinv _ _ Hi Hp) |].
    destruct (i - length (goroutines s)) as [|k]; [| destruct k; discriminate Hi].
    injection Hi as <-. discriminate Hp.
  - (* EvCancel *)
    rewrite list_lookup_fmap in Hi.
    destruct (goroutines s !! i) as [g|] eqn:Eg; [| discriminate Hi].
    injection Hi as <-.
    unfold wake_cancelled, is_parked in *.
    destruct (g_pc g) eqn:Epc; simpl in *; rewrite ?Epc in Hp; try discriminate Hp.
    case_bool_decide as Hc; simpl in *; [discriminate Hp |].
    rewrite lookup_insert_ne by (intros ->; done).
    apply (Hinv _ _ Eg Epc).
  - (* park *)
    simpl. assumption.
  - (* release that wakes a blocked sender *)
    match goal with
    | Hk : goroutines s !! ?k = Some ?gk |- _ =>
        destruct (decide (k = i)) as [? | Hnk];
        [ subst k;
          rewrite list_lookup_insert_eq in Hi by (eapply lookup_lt_Some; exact Hk);
          injection Hi as <-; discriminate Hp
        | rewrite list_lookup_insert_ne in Hi by exact Hnk;
          exact (Hinv _ _ Hi Hp) ]
    end.
Qed.

Lemma parked_inv_run b evs s : run b evs = Some s → parked_inv s.
Proof.
  apply (run_from_invariant b parked_inv); [| apply parked_inv_initial].
  intros ? ? ?. apply parked_inv_exec.
Qed.

Lemma full_inv_initial b : full_inv b initial_state.
Proof. intros i g Hi. discriminate Hi. Qed.

Lemma full_inv_exec b s ev s' :
  slots_inv b s → full_inv b s → exec b s ev = Some s' → full_inv b s'.
Proof.
  intros [_ Hcap] Hinv Hexec i g' Hi Hp.
  destruct ev as [m ctx now | c e | j c | j | j now | j ret | j wake | j];
    simpl in Hexec; exec_cases Hexec; simpl in *.
  all: try (exact (Hinv _ _ Hi Hp)).
  all: try (parked_moved_or_other s i j Hinv Hi Hp; try (exact (Hinv _ _ Hi Hp))).
  - (* EvCall *)
    apply lookup_app_Some in Hi as [Hi | [_ Hi]]; [exact (Hinv _ _ Hi Hp) |].
    destruct (i - length (goroutines s)) as [|k]; [| destruct k; discriminate Hi].
    injection Hi as <-. discriminate Hp.
  - (* EvCancel *)
    rewrite list_lookup_fmap in Hi.
    destruct (goroutines s !! i) as [g|] eqn:Eg; [| discriminate Hi].
    injection Hi as <-.
    destruct (wake_cancelled_cases c e g) as [Heq | (_ & _ & Heq)];
      rewrite Heq in Hp; [exact (Hinv _ _ Eg Hp) | discriminate Hp].
  - (* select: send, by another goroutine, with a blocked one around *)
    match goal with
    | H : bool_decide (_ < _) = true |- _ => apply bool_decide_eq_true in H
    end.
    pose proof (Hinv _ _ Hi Hp). lia.
  - (* park *)
    match goal with
    | H : bool_decide (_ < _) = false |- _ => apply bool_decide_eq_false in H
    end.
    lia.
  - (* release that wakes a blocked sender *)
    match goal with
    | Hk : goroutines s !! ?k = Some ?gk |- _ =>
        destruct (decide (k = i)) as [? | Hnk];
        [ subst k;
          rewrite list_lookup_insert_eq in Hi by (eapply lookup_lt_Some; exact Hk);
          injection Hi as <-; discriminate Hp
        | rewrite list_lookup_insert_ne in Hi by exact Hnk;
          exact (Hinv _ _ Hi Hp) ]
    end.
  - (* release with no blocked sender *)
    match goal with
    | H : existsb is_parked (goroutines s) = false |- _ =>
        exfalso; apply not_true_iff_false in H; apply H;
        apply existsb_exists; exists g'; split;
        [ apply list_elem_of_In, list_elem_of_lookup; eauto
        | unfold is_parked; rewrite Hp; reflexivity ]
    end.
Qed.

Lemma full_inv_run b evs s : run b evs = Some s → full_inv b s.
Proof.
  intros Hrun.
  apply (run_from_invariant b (λ s, slots_inv b s ∧ full_inv b s)
           (λ s ev s' '(conj H1 H2) Hexec,
              conj (slots_inv_exec b s ev s' H1 Hexec)
                   (full_inv_exec b s ev s' H1 H2 Hexec))
           evs initial_state s
           (conj (slots_inv_initial b) (full_inv_initial b)) Hrun).
Qed.

Lemma fits_inv_initial : fits_inv initial_state.
Proof. intros i g Hi. discriminate Hi. Qed.

Lemma well_typed_set_pc g p :
  well_typed (set_pc p g) =
  match p with
  | AtRelease ret | Returned ret => fits (g_method g) ret = true
  | _ => True
  end.
Proof. destruct p; reflexivity. Qed.

Lemma fits_inv_exec b s ev s' :
  fits_inv s → exec b s ev = Some s' → fits_inv s'.
Proof.
  intros Hinv Hexec i g' Hi'.
  destruct ev as [m ctx now | c e | j c | j | j now | j ret | j wake | j];
    simpl in Hexec; exec_cases Hexec; simpl in *.
  all: try (exact (Hinv _ _ Hi')).
  all: try (destruct (decide (j = i)) as [? | Hne];
    [ subst j;
      rewrite list_lookup_insert_eq in Hi'
        by (rewrite ?length_insert; eapply lookup_lt_Some; eassumption);
      injection Hi' as <-; rewrite well_typed_set_pc; try exact I
    | rewrite list_lookup_insert_ne in Hi' by exact Hne;
      try (exact (Hinv _ _ Hi')) ]).
  - (* EvCall *)
    apply lookup_app_Some in Hi' as [Hi' | [_ Hi']]; [exact (Hinv _ _ Hi') |].
    destruct (i - length (goroutines s)) as [|k]; [| destruct k; discriminate Hi'].
    injection Hi' as <-. exact I.
  - (* EvCancel *)
    rewrite list_lookup_fmap in Hi'.
    destruct (goroutines s !! i) as [g|] eqn:Eg; [| discriminate Hi'].
    injection Hi' as <-.
    destruct (wake_cancelled_cases c e g) as [-> | (_ & _ & ->)];
      [exact (Hinv _ _ Eg) | exact I].
  - (* wrapped returns *)
    assumption.
  - (* release that wakes a blocked sender: the releasing goroutine *)
    match goal with
    | Hg : goroutines s !! i = Some ?g, Hpc : g_pc ?g = AtRelease _ |- _ =>
        pose proof (Hinv _ _ Hg) as Hwt; unfold well_typed in Hwt;
        rewrite Hpc in Hwt; exact Hwt
    end.
  - (* release that wakes a blocked sender: the others *)
    match goal with
    | Hk : goroutines s !! ?k = Some ?gk |- _ =>
        destruct (decide (k = i)) as [? | Hnk];
        [ subst k;
          rewrite list_lookup_insert_eq in Hi' by (eapply lookup_lt_Some; exact Hk);
          injection Hi' as <-; exact I
        | rewrite list_lookup_insert_ne in Hi' by exact Hnk;
          exact (Hinv _ _ Hi') ]
    end.
  - (* release *)
    match goal with
    | Hg : goroutines s !! i = Some ?g, Hpc : g_pc ?g = AtRelease _ |- _ =>
        pose proof (Hinv _ _ Hg) as Hwt; unfold well_typed in Hwt;
        rewrite Hpc in Hwt; exact Hwt
    end.
  - (* next *)
    match goal with
    | Hg : goroutines s !! i = Some ?g, Hpc : g_pc ?g = Returned _ |- _ =>
        pose proof (Hinv _ _ Hg) as Hwt; unfold well_typed in Hwt;
        rewrite Hpc in Hwt; unfold fits in *; simpl in *; exact Hwt
    end.
Qed.

Lemma fits_inv_run b evs s : run b evs = Some s → fits_inv s.
Proof.
  apply (run_from_invariant b fits_inv); [| apply fits_inv_initial].
  intros ? ? ?. apply fits_inv_exec.
Qed.

(** ** Cancellation *)

Lemma aborting_closed e p p' : aborting e p → pc_succ p p' → aborting e p'.
Proof. intros [-> | ->] Hs; inversion Hs; subst; right; reflexivity. Qed.

Lemma recording_no_call g now m : CallWrapped m ∉ recording g now.
Proof.
  unfold recording. intros Hin.
  apply elem_of_cons in Hin as [Hin | Hin]; [discriminate Hin |].
  apply elem_of_cons in Hin as [Hin | Hin]; [discriminate Hin |].
  by apply not_elem_of_nil in Hin.
Qed.

(** C6.  In every run, a goroutine that is blocked in the select of
    [waitForLimiter] faces a full limiter and a context that is not done;
    when that context is cancelled (with [ctx.Err() = e]), the select runs
    its [ctx.Done()] case at once and the limiter is untouched; whatever happens afterwards, the goroutine only goes on to
    return [(nil, e)] from the method: it records its wait and returns,
    never calls the wrapped reader, and is at no time one of the goroutines
    the tokens of the limiter stand for. *)
Theorem blocked_acquirer_aborts_on_cancel
    (b : BoundedConcurrencyTupleReader) (evs : list event) (s : state)
    (i : nat) (g : goroutine) (e : ctx_error) :
  run b evs = Some s →
  goroutines s !! i = Some g →
  g_pc g = Parked →
  limiter s = limiter_cap b ∧
  cancelled s !! ctx_ident (g_ctx g) = None ∧
  ∃ s1,
    exec b s (EvCancel (ctx_ident (g_ctx g)) e) = Some s1 ∧
    goroutines s1 !! i = Some (set_pc (AfterSelect (Some e)) g) ∧
    limiter s1 = limiter s ∧
    ∀ evs' s2,
      run_from b s1 evs' = Some s2 →
      ∃ p,
        goroutines s2 !! i = Some (set_pc p g) ∧
        (p = AfterSelect (Some e) ∨ p = Aborted e) ∧
        holds_slot p = false ∧
        limiter s2 = count_pc holds_slot (goroutines s2) ∧
        (∀ m, CallWrapped m ∉ effects_of i (trace s2)) ∧
        (p = AfterSelect (Some e) →
           ∀ now, ∃ s3,
             exec b s2 (EvRecord i now) = Some s3 ∧
             goroutines s3 !! i = Some (set_pc (Aborted e) g) ∧
             limiter s3 = limiter s2) ∧
        (p = Aborted e →
           returned_value p = Some {| rv := None; rerr := Some (ctx_Err e) |}).
Proof.
  intros Hrun Hi Hpc.
  pose proof (parked_inv_run _ _ _ Hrun _ _ Hi Hpc) as Hnot.
  split; [exact (full_inv_run _ _ _ Hrun _ _ Hi Hpc) |].
  split; [exact Hnot |].
  eexists. split; [simpl; rewrite Hnot; reflexivity |].
  assert (Hi1 : (wake_cancelled (ctx_ident (g_ctx g)) e <$> goroutines s) !! i
                = Some (set_pc (AfterSelect (Some e)) g)).
  { rewrite list_lookup_fmap, Hi. simpl. unfold wake_cancelled, is_parked.
    rewrite Hpc, bool_decide_eq_true_2 by reflexivity. reflexivity. }
  split; [exact Hi1 |]. split; [reflexivity |].
  intros evs' s2 Hrun2.
  destruct (run_from_goroutine b (aborting e) (aborting_closed e)
              _ _ _ _ _ Hrun2 Hi1 (or_introl eq_refl)) as (p & Hp & Hab).
  rewrite set_pc_set_pc in Hp.
  assert (Hreach : run b (evs ++ EvCancel (ctx_ident (g_ctx g)) e :: evs') = Some s2).
  { apply (run_extend _ _ _ _ _ Hrun). simpl. rewrite Hnot. exact Hrun2. }
  destruct (slots_inv_run _ _ _ Hreach) as [Hslots _].
  destruct (effects_inv_run _ _ _ Hreach) as [Hexp _].
  specialize (Hexp _ _ Hp). rewrite expected_effects_set_pc in Hexp.
  exists p. split; [exact Hp |]. split; [exact Hab |].
  split; [destruct Hab as [-> | ->]; reflexivity |].
  split; [symmetry; exact Hslots |].
  split.
  - intros m Hin. destruct Hab as [-> | ->].
    + rewrite Hexp in Hin. by apply not_elem_of_nil in Hin.
    + destruct Hexp as [now Hexp]. rewrite Hexp in Hin.
      by apply recording_no_call in Hin.
  - split.
    + intros -> now. eexists. split; [simpl; rewrite Hp; simpl; reflexivity |].
      split; [| reflexivity].
      simpl. rewrite list_lookup_insert_eq by (eapply lookup_lt_Some, Hp).
      reflexivity.
    + intros ->. reflexivity.
Qed.

(** C7, as the code has it.  In every run, for a goroutine that reaches
    the select of [waitForLimiter] with a context that is already done
    (cancelled or past its deadline, [ctx.Err() = e]): the [ctx.Done()]
    case can proceed, so the goroutine does not block; the send can
    proceed as well exactly when the limiter has a free slot, and then
    either case may run; when the limiter is full, every step of the
    goroutine is the [ctx.Done()] case, after which the call returns
    [(nil, e)].  And a resolution that fails with the context's error makes
    [Server.Check] return [serverErrors.HandleError("", e)], not a
    response. *)
Theorem cancelled_context_at_admission
    (b : BoundedConcurrencyTupleReader) (evs : list event) (s : state)
    (i : nat) (g : goroutine) (e : ctx_error) :
  run b evs = Some s →
  goroutines s !! i = Some g →
  g_pc g = AtSelect →
  cancelled s !! ctx_ident (g_ctx g) = Some e →
  exec b s (EvSelect i CaseDone)
    = Some (with_goroutine i (set_pc (AfterSelect (Some e)) g) s) ∧
  exec b s (EvPark i) = None ∧
  (is_Some (exec b s (EvSelect i CaseSend)) ↔ limiter s < limiter_cap b) ∧
  (limiter s = limiter_cap b →
     ∀ ev s', acts ev i = true → exec b s ev = Some s' →
       ev = EvSelect i CaseDone ∧
       goroutines s' !! i = Some (set_pc (AfterSelect (Some e)) g) ∧
       limiter s' = limiter s) ∧
  (∀ srv env req,
     resolution_returns srv env req (inr (ctx_Err e)) →
     Server_Check srv env req = Err (HandleError "" (ctx_Err e))).
Proof.
  intros Hrun Hi Hpc Hdone.
  pose proof (lookup_lt_Some _ _ _ Hi) as Hlt.
  split; [simpl; rewrite Hi, Hpc, Hdone; reflexivity |].
  split; [simpl; rewrite Hi, Hpc, Hdone; reflexivity |].
  split.
  { simpl. rewrite Hi, Hpc. case_bool_decide; split; intros H';
      first [ assumption | done | by destruct H' as [? [=]] ]. }
  split.
  - intros Hfull ev s' Hacts Hexec.
    destruct ev as [m ctx now | c e' | j c | j | j now | j ret | j wake | j];
      simpl in Hacts; try discriminate Hacts.
    all: try (apply bool_decide_eq_true in Hacts; subst j).
    all: simpl in Hexec; rewrite ?Hi, ?Hpc, ?Hdone in Hexec; simpl in Hexec;
      try discriminate Hexec.
    + destruct c; simpl in Hexec.
      * injection Hexec as <-. simpl.
        rewrite list_lookup_insert_eq by exact Hlt. auto.
      * rewrite bool_decide_eq_false_2 in Hexec by lia. discriminate Hexec.
    + (* a release by another goroutine cannot wake one that is not blocked *)
      destruct (goroutines s !! j) as [gj|] eqn:Ej; [| discriminate Hexec].
      destruct (g_pc gj) eqn:Epj; try discriminate Hexec.
      destruct (limiter s) eqn:El; [discriminate Hexec |].
      apply orb_true_iff in Hacts as [Hj | Hw].
      * apply bool_decide_eq_true in Hj. subst j.
        rewrite Hi in Ej. injection Ej as <-. rewrite Hpc in Epj. discriminate Epj.
      * apply bool_decide_eq_true in Hw. subst wake.
        rewrite Hi in Hexec. unfold is_parked in Hexec. rewrite Hpc in Hexec.
        discriminate Hexec.
  - intros srv env req Hres.
    rewrite (Server_Check_after_resolution _ _ _ _ Hres).
    destruct e; reflexivity.
Qed.

(** ** Iterators *)

Lemma draining_closed it err p p' :
  draining it err p → pc_succ p p' → draining it err p'.
Proof.
  intros (rest & -> & Hsuf) Hs. inversion Hs; subst.
  eexists. split; [reflexivity |]. eapply suffix_cons_l, Hsuf.
Qed.

(** C10.  In every run, a goroutine whose wrapped reader has returned an
    iterator is in [Read], [ReadUsersetTuples] or [ReadStartingWithUser],
    and: the deferred receive can proceed; it takes the goroutine out of the
    goroutines the limiter's tokens stand for (the token is removed, or
    passed to a blocked sender) and the method returns the iterator with
    all its tuples still to be yielded; from then on, whatever else
    happens, the caller can take the remaining tuples one by one while the
    limiter only counts other goroutines. *)
Theorem slot_released_before_iterator_is_drained
    (b : BoundedConcurrencyTupleReader) (evs : list event) (s : state)
    (i : nat) (g : goroutine) (it : list TupleKey) (err : option goerror) :
  run b evs = Some s →
  goroutines s !! i = Some g →
  g_pc g = AtRelease (iterator it err) →
  (g_method g = Read ∨ g_method g = ReadUsersetTuples ∨
   g_method g = ReadStartingWithUser) ∧
  (∃ wake s', exec b s (EvRelease i wake) = Some s') ∧
  ∀ wake s',
    exec b s (EvRelease i wake) = Some s' →
    goroutines s' !! i = Some (set_pc (Returned (iterator it err)) g) ∧
    limiter s' = count_pc holds_slot (goroutines s') ∧
    (wake = None → S (limiter s') = limiter s) ∧
    (∀ k, wake = Some k →
       limiter s' = limiter s ∧
       ∃ gk, goroutines s !! k = Some gk ∧ g_pc gk = Parked ∧
             goroutines s' !! k = Some (set_pc (AfterSelect None) gk)) ∧
    ∀ evs' s2,
      run_from b s' evs' = Some s2 →
      ∃ rest,
        goroutines s2 !! i = Some (set_pc (Returned (iterator rest err)) g) ∧
        rest `suffix_of` it ∧
        holds_slot (Returned (iterator rest err)) = false ∧
        limiter s2 = count_pc holds_slot (goroutines s2) ∧
        ∀ t rest', rest = t :: rest' →
          ∃ s3, exec b s2 (EvNext i) = Some s3 ∧
                goroutines s3 !! i = Some (set_pc (Returned (iterator rest' err)) g) ∧
                limiter s3 = limiter s2.
Proof.
  intros Hrun Hi Hpc.
  pose proof (lookup_lt_Some _ _ _ Hi) as Hlt.
  pose proof (release_never_blocks _ _ _ _ _ _ Hrun Hi Hpc) as Hpos.
  destruct (limiter s) as [|n] eqn:Hlim; [lia |].
  split.
  { pose proof (fits_inv_run _ _ _ Hrun _ _ Hi) as Hwt.
    unfold well_typed in Hwt. rewrite Hpc in Hwt.
    destruct (g_method g); simpl in Hwt; auto; discriminate Hwt. }
  split.
  - (* the receive can proceed *)
    destruct (existsb is_parked (goroutines s)) eqn:Hex.
    + apply existsb_exists in Hex as (gk & Hin & Hpk).
      apply list_elem_of_In, list_elem_of_lookup in Hin as [k Hk].
      exists (Some k). eexists. simpl. rewrite Hi, Hpc, Hlim, Hk, Hpk. reflexivity.
    + exists None. eexists. simpl. rewrite Hi, Hpc, Hlim, Hex. reflexivity.
  - intros wake s' Hexec.
    assert (Hreach1 : run b (evs ++ [EvRelease i wake]) = Some s').
    { apply (run_extend _ _ _ _ _ Hrun), run_from_one, Hexec. }
    destruct (slots_inv_run _ _ _ Hreach1) as [Hslots1 _].
    assert (Hi' : goroutines s' !! i = Some (set_pc (Returned (iterator it err)) g)).
    { simpl in Hexec. rewrite Hi, Hpc, Hlim in Hexec.
      destruct wake as [k|].
      - destruct (goroutines s !! k) as [gk|]; [| discriminate Hexec].
        destruct (is_parked gk); [| discriminate Hexec].
        injection Hexec as <-. simpl.
        apply list_lookup_insert_eq. rewrite length_insert. exact Hlt.
      - destruct (existsb is_parked (goroutines s)); [discriminate Hexec |].
        injection Hexec as <-. simpl.
        apply list_lookup_insert_eq. exact Hlt. }
    split; [exact Hi' |]. split; [symmetry; exact Hslots1 |].
    split; [| split].
    + intros ->. simpl in Hexec. rewrite Hi, Hpc, Hlim in Hexec.
      destruct (existsb is_parked (goroutines s)); [discriminate Hexec |].
      injection Hexec as <-. reflexivity.
    + intros k ->. simpl in Hexec. rewrite Hi, Hpc, Hlim in Hexec.
      destruct (goroutines s !! k) as [gk|] eqn:Hk; [| discriminate Hexec].
      destruct (is_parked gk) eqn:Hpk; [| discriminate Hexec].
      injection Hexec as <-. simpl. split; [congruence |].
      unfold is_parked in Hpk. destruct (g_pc gk) eqn:Epk; try discriminate Hpk.
      exists gk. repeat split; [done |].
      assert (i ≠ k) as Hne
        by (eapply lookup_pc_ne; [exact Hi | exact Hk | rewrite Hpc, Epk; discriminate]).
      rewrite list_lookup_insert_ne by exact Hne.
      apply list_lookup_insert_eq. eapply lookup_lt_Some, Hk.
    + intros evs' s2 Hrun2.
      destruct (run_from_goroutine b (draining it err) (draining_closed it err)
                  _ _ _ _ _ Hrun2 Hi') as (p & Hp & rest & -> & Hsuf).
      { exists it. split; [reflexivity | done]. }
      rewrite set_pc_set_pc in Hp.
      assert (Hreach2 : run b ((evs ++ [EvRelease i wake]) ++ evs') = Some s2)
        by exact (run_extend _ _ _ _ _ Hreach1 Hrun2).
      destruct (slots_inv_run _ _ _ Hreach2) as [Hslots2 _].
      exists rest. split; [exact Hp |]. split; [exact Hsuf |].
      split; [reflexivity |]. split; [symmetry; exact Hslots2 |].
      intros t rest' ->. eexists. split; [simpl; rewrite Hp; reflexivity |].
      split; [| reflexivity]. simpl.
      apply list_lookup_insert_eq. eapply lookup_lt_Some, Hp.
Qed.

(** ** The statements at work *)

Lemma at_most_N_concurrent_reads_witness :
  run Scenario.reader Scenario.one_reading_one_blocked
    = Some (Scenario.state_after Scenario.one_reading_one_blocked) ∧
  count_pc in_wrapped
    (goroutines (Scenario.state_after Scenario.one_reading_one_blocked)) ≤ 1.
Proof.
  assert (H : run Scenario.reader Scenario.one_reading_one_blocked
              = Some (Scenario.state_after Scenario.one_reading_one_blocked))
    by reflexivity.
  split; [exact H |].
  exact (proj1 (at_most_N_concurrent_reads 1 _ _ H)).
Defined.


Lemma blocked_acquirer_aborts_on_cancel_witness :
  Scenario.pc_after Scenario.one_reading_one_blocked 1 = Some Parked ∧
  ∃ s1,
    exec Scenario.reader (Scenario.state_after Scenario.one_reading_one_blocked)
      (EvCancel 1 CtxCanceled) = Some s1 ∧
    g_pc <$> goroutines s1 !! 1 = Some (AfterSelect (Some CtxCanceled)) ∧
    limiter s1 = 1.
Proof.
  split; [reflexivity |].
  destruct (blocked_acquirer_aborts_on_cancel Scenario.reader
              Scenario.one_reading_one_blocked
              (Scenario.state_after Scenario.one_reading_one_blocked) 1
              (Scenario.goroutine_after Scenario.one_reading_one_blocked 1)
              CtxCanceled eq_refl eq_refl eq_refl)
    as (_ & _ & s1 & Hexec & Hpc & Hlim & _).
  exists s1. split; [exact Hexec |]. rewrite Hpc, Hlim. split; reflexivity.
Defined.

Lemma cancelled_context_at_admission_witness :
  exec Scenario.reader (Scenario.state_after Scenario.called_after_deadline)
    (EvSelect 0 CaseDone)
  = Some (with_goroutine 0
            (set_pc (AfterSelect (Some CtxDeadlineExceeded))
               (Scenario.goroutine_after Scenario.called_after_deadline 0))
            (Scenario.state_after Scenario.called_after_deadline)).
Proof.
  exact (proj1 (cancelled_context_at_admission Scenario.reader
                  Scenario.called_after_deadline
                  (Scenario.state_after Scenario.called_after_deadline) 0
                  (Scenario.goroutine_after Scenario.called_after_deadline 0)
                  CtxDeadlineExceeded eq_refl eq_refl eq_refl eq_refl)).
Defined.

(** C7 as stated fails: a [Read] is called with a context whose deadline
    has already passed, the limiter has a free slot, the select runs the
    send: the call is admitted, the wrapped reader is called, and the
    method returns the wrapped reader's iterator and a nil error instead of
    the deadline error. *)
Lemma cancelled_context_is_admitted :
  cancelled (Scenario.state_after Scenario.called_after_deadline) !! 0
    = Some CtxDeadlineExceeded ∧
  Scenario.pc_after Scenario.called_after_deadline 0 = Some AtSelect ∧
  is_Some (run Scenario.reader Scenario.admitted_after_deadline) ∧
  effects_of 0 (trace (Scenario.state_after Scenario.admitted_after_deadline))
    = [ Observe "openfga.v1.OpenFGAService" "Check" 3;
        SetAttributes 0 "time_waiting" 3;
        CallWrapped Read ] ∧
  (Scenario.pc_after Scenario.admitted_after_deadline 0 ≫= returned_value)
    = Some {| rv := Some (VIterator Scenario.two_tuples); rerr := None |}.
Proof. repeat split; try reflexivity. eexists; reflexivity. Qed.

Lemma slot_released_before_iterator_is_drained_witness :
  Scenario.pc_after Scenario.read_at_release 0
    = Some (AtRelease (iterator Scenario.two_tuples None)) ∧
  ∃ wake s',
    exec Scenario.reader (Scenario.state_after Scenario.read_at_release)
      (EvRelease 0 wake) = Some s'.
Proof.
  split; [reflexivity |].
  exact (proj1 (proj2 (slot_released_before_iterator_is_drained Scenario.reader
                  Scenario.read_at_release
                  (Scenario.state_after Scenario.read_at_release) 0
                  (Scenario.goroutine_after Scenario.read_at_release 0)
                  Scenario.two_tuples None eq_refl eq_refl eq_refl))).
Defined.

(** With a limit of one, two iterators are open and consumed side by side
    while the limiter is empty. *)
Lemma iterators_outlive_the_slot :
  limiter (Scenario.state_after Scenario.two_iterators_open) = 0 ∧
  Scenario.pc_after Scenario.two_iterators_open 0
    = Some (Returned (iterator [Scenario.viewer_tuple] None)) ∧
  Scenario.pc_after Scenario.two_iterators_open 1
    = Some (Returned (iterator [Scenario.viewer_tuple] None)) ∧
  is_Some (exec Scenario.reader (Scenario.state_after Scenario.two_iterators_open)
             (EvNext 0)) ∧
  is_Some (exec Scenario.reader (Scenario.state_after Scenario.two_iterators_open)
             (EvNext 1)).
Proof. repeat split; try reflexivity; eexists; reflexivity. Qed.

(* ===================================================================== *)
(** * Further properties of the bounded reader *)
(* ===================================================================== *)

Lemma count_pc_zero f gs :
  (∀ i g, gs !! i = Some g → f (g_pc g) = false) → count_pc f gs = 0.
Proof.
  induction gs as [|g gs IH]; intros Hall; [reflexivity |].
  rewrite count_pc_cons. unfold weight. rewrite (Hall 0 g eq_refl).
  rewrite IH; [reflexivity |]. intros i g' Hi. exact (Hall (S i) g' Hi).
Qed.

Lemma count_pc_zero_inv f gs i g :
  count_pc f gs = 0 → gs !! i = Some g → f (g_pc g) = false.
Proof.
  intros H0 Hi. destruct (f (g_pc g)) eqn:E; [| reflexivity].
  pose proof (count_pc_pos f gs i g Hi E). lia.
Qed.

(** Only a new call adds a goroutine. *)
Lemma exec_length b s ev s' :
  exec b s ev = Some s' →
  length (goroutines s') =
  length (goroutines s) + match ev with EvCall _ _ _ => 1 | _ => 0 end.
Proof.
  intros Hexec.
  destruct ev as [m ctx now | c e | i c | i | i now | i ret | i wake | i];
    simpl in Hexec; exec_cases Hexec; simpl;
    rewrite ?length_insert, ?length_fmap, ?length_app; simpl; lia.
Qed.

(** Where a goroutine of the state after an action comes from: it was
    there before, at the same program point or one edge of the control flow
    earlier, or it is a new call at the select. *)
Lemma exec_goroutine_back b s ev s' i g' :
  exec b s ev = Some s' →
  goroutines s' !! i = Some g' →
  (∃ g, goroutines s !! i = Some g ∧ g' = set_pc (g_pc g') g ∧
        (g_pc g' = g_pc g ∨ pc_succ (g_pc g) (g_pc g'))) ∨
  (goroutines s !! i = None ∧ g_pc g' = AtSelect).
Proof.
  intros Hexec Hi'.
  destruct (goroutines s !! i) as [g|] eqn:Hi.
  - left. destruct (exec_goroutine _ _ _ _ _ _ Hexec Hi) as (p & Hp & Hstep).
    rewrite Hp in Hi'. injection Hi' as <-. exists g. auto.
  - right. split; [reflexivity |].
    apply lookup_ge_None in Hi.
    pose proof (lookup_lt_Some _ _ _ Hi') as Hlt.
    pose proof (exec_length _ _ _ _ Hexec) as Hlen.
    destruct ev as [m ctx now | | | | | | |]; try lia.
    simpl in Hexec. injection Hexec as <-. simpl in *.
    assert (i = length (goroutines s)) as -> by lia.
    rewrite lookup_app_r, Nat.sub_diag in Hi' by lia.
    injection Hi' as <-. reflexivity.
Qed.

(** Every goroutine of a reachable state is at a program point that the
    control flow reaches from the select. *)
Lemma run_goroutine_invariant b (Q : pc → Prop) :
  Q AtSelect →
  (∀ p p', Q p → pc_succ p p' → Q p') →
  ∀ evs s i g, run b evs = Some s → goroutines s !! i = Some g → Q (g_pc g).
Proof.
  intros Hinit Hclosed evs s i g Hrun. revert i g.
  refine (run_from_invariant b (λ s, ∀ i g, goroutines s !! i = Some g → Q (g_pc g))
            _ evs initial_state s _ Hrun).
  - intros s0 ev s1 IH Hexec i g Hi.
    destruct (exec_goroutine_back _ _ _ _ _ _ Hexec Hi)
      as [(g0 & Hi0 & _ & [-> | Hs]) | [_ ->]].
    + exact (IH _ _ Hi0).
    + exact (Hclosed _ _ (IH _ _ Hi0) Hs).
    + exact Hinit.
  - intros i g Hi. discriminate Hi.
Qed.

(** X1.  No slot leaks: in every run, once every call made so far has
    returned (with the context's error or with the wrapped reader's
    result), the limiter is empty again. *)
Theorem no_slot_is_leaked
    (b : BoundedConcurrencyTupleReader) (evs : list event) (s : state) :
  run b evs = Some s →
  (∀ i g, goroutines s !! i = Some g → finished (g_pc g) = true) →
  limiter s = 0 ∧ count_pc holds_slot (goroutines s) = 0.
Proof.
  intros Hrun Hall. destruct (slots_inv_run _ _ _ Hrun) as [Hcount _].
  assert (count_pc holds_slot (goroutines s) = 0).
  { apply count_pc_zero. intros i g Hi. specialize (Hall _ _ Hi).
    destruct (g_pc g); try discriminate Hall; reflexivity. }
  split; [lia | assumption].
Qed.

(** X2.  In every run, a goroutine that has been admitted and has gone on
    from there has called the method of the wrapped reader that bears the
    name of its own method, once, as the last of its effects, after the
    recording of its wait; every other goroutine (waiting, blocked,
    aborting or aborted) has not called the wrapped reader. *)
Theorem wrapped_reader_called_once
    (b : BoundedConcurrencyTupleReader) (evs : list event) (s : state)
    (i : nat) (g : goroutine) :
  run b evs = Some s →
  goroutines s !! i = Some g →
  match g_pc g with
  | InWrapped | AtRelease _ | Returned _ =>
      calls_of i (trace s) = [CallWrapped (g_method g)] ∧
      ∃ now, effects_of i (trace s) = recording g now ++ [CallWrapped (g_method g)]
  | _ => calls_of i (trace s) = []
  end.
Proof.
  intros Hrun Hi. destruct (effects_inv_run _ _ _ Hrun) as [Hexp _].
  specialize (Hexp _ _ Hi). unfold expected_effects in Hexp. unfold calls_of.
  destruct (g_pc g); try (rewrite Hexp; reflexivity);
    destruct Hexp as [now Hexp]; rewrite Hexp;
    first [ reflexivity | split; [reflexivity | exists now; reflexivity] ].
Qed.

Lemma consumed_from_refl ret : consumed_from ret ret.
Proof.
  split; [reflexivity |]. destruct (rv ret) as [[t | it]|]; try reflexivity.
  exists it. split; [reflexivity | done].
Qed.

Lemma passing_closed ret p p' : passing ret p → pc_succ p p' → passing ret p'.
Proof.
  intros [-> | (ret' & -> & Herr & Hv)] Hs; inversion Hs; subst.
  - right. exists ret. split; [reflexivity | apply consumed_from_refl].
  - right. eexists. split; [reflexivity |]. split; [exact Herr |].
    simpl in *. destruct (rv ret) as [[t0 | it]|]; try discriminate Hv.
    destruct Hv as (rest0 & [= <-] & Hsuf).
    exists rest. split; [reflexivity |]. eapply suffix_cons_l, Hsuf.
Qed.

(** X3.  The decorator hands the wrapped reader's result through: from
    the moment the wrapped reader returns [ret] to a goroutine, whatever
    happens next, the goroutine is either about to release its slot with
    [ret] in hand or has returned a value with the error of [ret] and the
    value of [ret], of whose iterator the caller may by then have taken
    tuples from the front. *)
Theorem wrapped_result_is_passed_through
    (b : BoundedConcurrencyTupleReader) (s s1 : state)
    (i : nat) (g : goroutine) (ret : read_return) :
  goroutines s !! i = Some g →
  exec b s (EvWrappedReturn i ret) = Some s1 →
  g_pc g = InWrapped ∧
  fits (g_method g) ret = true ∧
  goroutines s1 !! i = Some (set_pc (AtRelease ret) g) ∧
  ∀ evs' s2,
    run_from b s1 evs' = Some s2 →
    ∃ p, goroutines s2 !! i = Some (set_pc p g) ∧
         (p = AtRelease ret ∨
          ∃ ret', p = Returned ret' ∧ returned_value p = Some ret' ∧
                  consumed_from ret ret').
Proof.
  intros Hi Hexec. simpl in Hexec. rewrite Hi in Hexec.
  destruct (g_pc g) eqn:Hpc; try discriminate Hexec.
  destruct (fits (g_method g) ret) eqn:Hfits; [| discriminate Hexec].
  injection Hexec as <-.
  assert (Hi1 : goroutines (with_goroutine i (set_pc (AtRelease ret) g) s) !! i
                = Some (set_pc (AtRelease ret) g))
    by (simpl; apply list_lookup_insert_eq; eapply lookup_lt_Some, Hi).
  split; [reflexivity |]. split; [reflexivity |]. split; [exact Hi1 |].
  intros evs' s2 Hrun2.
  destruct (run_from_goroutine b (passing ret) (passing_closed ret)
              _ _ _ _ _ Hrun2 Hi1 (or_introl eq_refl)) as (p & Hp & Hpass).
  rewrite set_pc_set_pc in Hp. exists p. split; [exact Hp |].
  destruct Hpass as [-> | (ret' & -> & Hc)]; [left; reflexivity |].
  right. exists ret'. auto.
Qed.

Lemma never_admitted_no_slot p : never_admitted p → holds_slot p = false.
Proof. destruct p as [| | [e|] | | | |]; simpl; intros H; done. Qed.

Lemma zero_width_never_admitted evs s :
  run (NewBoundedConcurrencyTupleReader 0) evs = Some s →
  ∀ (i : nat) g, goroutines s !! i = Some g → never_admitted (g_pc g).
Proof.
  intros Hrun.
  refine (proj2 (run_from_invariant (NewBoundedConcurrencyTupleReader 0)
            (λ s, slots_inv (NewBoundedConcurrencyTupleReader 0) s ∧
                  ∀ (i : nat) g, goroutines s !! i = Some g → never_admitted (g_pc g))
            _ evs initial_state s _ Hrun)).
  - intros s0 ev s1 [Hslots IH] Hexec.
    pose proof (slots_inv_exec _ _ _ _ Hslots Hexec) as Hslots1.
    split; [exact Hslots1 |]. intros i g Hi.
    destruct Hslots1 as [Hc1 Hcap1]. simpl in Hcap1.
    assert (Hzero : count_pc holds_slot (goroutines s1) = 0) by lia.
    pose proof (count_pc_zero_inv _ _ _ _ Hzero Hi) as Hno.
    destruct (exec_goroutine_back _ _ _ _ _ _ Hexec Hi)
      as [(g0 & Hi0 & _ & [-> | Hs]) | [_ ->]]; [exact (IH _ _ Hi0) | | exact I].
    specialize (IH _ _ Hi0).
    destruct (g_pc g0) as [| | [e0|] | | | |] eqn:E0; simpl in IH; try done;
      destruct (g_pc g) as [| | [e1|] | | | |] eqn:E1; simpl in Hno |- *; try done;
      inversion Hs.
  - split; [apply slots_inv_initial |]. intros i g Hi. discriminate Hi.
Qed.

(** X4.  A limit of zero admits nothing: the limiter is then an
    unbuffered channel that nobody receives from, so in every run no call
    holds a slot, the wrapped reader is never called, a call whose
    context is not done blocks, and every value a call has returned is
    [(nil, ctx.Err())]. *)
Theorem zero_width_admits_nothing (evs : list event) (s : state) :
  run (NewBoundedConcurrencyTupleReader 0) evs = Some s →
  limiter s = 0 ∧
  (∀ i m, CallWrapped m ∉ effects_of i (trace s)) ∧
  ∀ i g, goroutines s !! i = Some g →
    never_admitted (g_pc g) ∧
    (∀ ret, returned_value (g_pc g) = Some ret →
            ∃ e, ret = {| rv := None; rerr := Some (ctx_Err e) |}) ∧
    (g_pc g = AtSelect →
     cancelled s !! ctx_ident (g_ctx g) = None →
     exec (NewBoundedConcurrencyTupleReader 0) s (EvSelect i CaseSend) = None ∧
     exec (NewBoundedConcurrencyTupleReader 0) s (EvSelect i CaseDone) = None ∧
     is_Some (exec (NewBoundedConcurrencyTupleReader 0) s (EvPark i))).
Proof.
  intros Hrun.
  destruct (slots_inv_run _ _ _ Hrun) as [Hcount Hcap]. simpl in Hcap.
  assert (Hlim : limiter s = 0) by lia.
  pose proof (zero_width_never_admitted _ _ Hrun) as Hnever.
  split; [exact Hlim |]. split.
  - intros i m Hin.
    destruct (effects_inv_run _ _ _ Hrun) as [Hexp Hb].
    destruct (goroutines s !! i) as [g|] eqn:Hi.
    + specialize (Hexp _ _ Hi). specialize (Hnever _ _ Hi).
      unfold expected_effects in Hexp.
      destruct (g_pc g) as [| | [e|] | | | |]; simpl in Hnever; try done;
        try (rewrite Hexp in Hin; by apply not_elem_of_nil in Hin).
      destruct Hexp as [now Hexp]. rewrite Hexp in Hin.
      by apply recording_no_call in Hin.
    + apply lookup_ge_None in Hi.
      unfold effects_of in Hin. apply list_elem_of_omap in Hin as ([j e] & Hje & Hsome).
      simpl in Hsome. case_bool_decide; [| discriminate Hsome]. subst j.
      specialize (Hb _ _ Hje). lia.
  - intros i g Hi. pose proof (Hnever _ _ Hi) as Hn. split; [exact Hn |]. split.
    + intros ret Hret. destruct (g_pc g) as [| | [e|] | e | | |]; simpl in *; try done.
      injection Hret as <-. eauto.
    + intros Hpc Hctx. simpl. rewrite Hi, Hpc, Hctx.
      repeat split; eauto.
Qed.

Lemma admitted_closed p p' : admitted p → pc_succ p p' → admitted p'.
Proof. intros Ha Hs. inversion Hs; subst; simpl in *; done. Qed.

(** X5.  Once the send of the select has run, the call is past
    cancellation as far as the decorator goes: whatever happens next, also
    a cancellation of its context, the goroutine never takes the abort path
    and never blocks; it holds its slot until it has returned. *)
Theorem admitted_call_is_not_aborted
    (b : BoundedConcurrencyTupleReader) (s : state) (i : nat) (g : goroutine)
    (evs' : list event) (s2 : state) :
  goroutines s !! i = Some g →
  g_pc g = AfterSelect None →
  run_from b s evs' = Some s2 →
  ∃ p, goroutines s2 !! i = Some (set_pc p g) ∧
       p ≠ Parked ∧ (∀ e, p ≠ Aborted e) ∧ (∀ e, p ≠ AfterSelect (Some e)) ∧
       (holds_slot p = true ∨ ∃ ret, p = Returned ret).
Proof.
  intros Hi Hpc Hrun.
  destruct (run_from_goroutine b admitted admitted_closed _ _ _ _ _ Hrun Hi)
    as (p & Hp & Ha); [rewrite Hpc; exact I |].
  exists p. split; [exact Hp |].
  destruct p as [| | [e|] | | | |]; simpl in Ha; try done;
    repeat split; try discriminate; eauto.
Qed.

(** X6.  The wait that is recorded is the time between [start] and the
    deferred function in whole milliseconds, rounded down: with a clock
    that does not run backwards it is not negative, it is zero for a wait
    of less than a millisecond, and the histogram and the span get the same
    number. *)
Theorem recorded_wait_is_whole_milliseconds (g : goroutine) (now : Z) :
  (g_start g ≤ now)%Z →
  ∃ ms,
    recording g now =
      [ Observe (rpc_Service (g_ctx g)) (rpc_Method (g_ctx g)) ms;
        SetAttributes (ctx_span (g_ctx g)) "time_waiting" ms ] ∧
    (0 ≤ ms)%Z ∧
    (ms * 1000000 ≤ now - g_start g < (ms + 1) * 1000000)%Z ∧
    ((now - g_start g < 1000000)%Z → ms = 0%Z).
Proof.
  intros Hle. exists (Milliseconds (Since (g_start g) now)).
  split; [reflexivity |]. unfold Milliseconds, Since.
  rewrite Z.quot_div_nonneg by lia.
  pose proof (Z.div_mod (now - g_start g) 1000000 ltac:(lia)) as Hdm.
  pose proof (Z.mod_pos_bound (now - g_start g) 1000000 ltac:(lia)) as Hmod.
  assert (0 ≤ (now - g_start g) `div` 1000000)%Z by (apply Z.div_pos; lia).
  split; [lia |]. split; [lia |].
  intros Hsmall. apply Z.div_small. lia.
Qed.

(* ===================================================================== *)
(** * Further properties of the server *)
(* ===================================================================== *)

(** ** Options *)

Lemma apply_options_snoc opts o s :
  apply_options (opts ++ [o]) s = apply_option o (apply_options opts s).
Proof. unfold apply_options. rewrite foldl_app. reflexivity. Qed.

Lemma last_option_snoc {A} (pick : OpenFGAServiceV1Option → option A) opts o :
  last_option pick (opts ++ [o]) =
  match pick o with
  | Some v => Some v
  | None => last_option pick opts
  end.
Proof.
  unfold last_option. rewrite omap_app. simpl.
  destruct (pick o) as [v|]; [apply last_snoc | rewrite app_nil_r; reflexivity].
Qed.

(** A field that an option of one kind sets and the others leave alone
    ends up with the value of the last option of that kind. *)
Lemma apply_options_last {A B} (field : Server → A)
    (pick : OpenFGAServiceV1Option → option B) (inj : B → A) :
  (∀ o s, field (apply_option o s) = from_option inj (field s) (pick o)) →
  ∀ opts s,
    field (apply_options opts s) = from_option inj (field s) (last_option pick opts).
Proof.
  intros Hone opts s. induction opts as [|o opts IH] using rev_ind; [reflexivity |].
  rewrite apply_options_snoc, Hone, last_option_snoc, IH.
  destruct (pick o); reflexivity.
Qed.

Ltac option_field := intros o [ ]; destruct o; reflexivity.

Lemma datastore_last opts s :
  datastore (apply_options opts s)
  = from_option Some (datastore s) (last_option datastore_option opts).
Proof. apply apply_options_last. option_field. Qed.

Lemma buckets_last opts s :
  requestDurationByQueryHistogramBuckets (apply_options opts s)
  = from_option sort_Slice (requestDurationByQueryHistogramBuckets s)
      (last_option buckets_option opts).
Proof. apply apply_options_last. option_field. Qed.

Lemma resolveNodeLimit_last opts s :
  resolveNodeLimit (apply_options opts s)
  = from_option id (resolveNodeLimit s) (last_option resolveNodeLimit_option opts).
Proof. apply apply_options_last. option_field. Qed.

Lemma resolveNodeBreadthLimit_last opts s :
  resolveNodeBreadthLimit (apply_options opts s)
  = from_option id (resolveNodeBreadthLimit s)
      (last_option resolveNodeBreadthLimit_option opts).
Proof. apply apply_options_last. option_field. Qed.

Lemma maxConcurrentReadsForCheck_last opts s :
  maxConcurrentReadsForCheck (apply_options opts s)
  = from_option id (maxConcurrentReadsForCheck s)
      (last_option maxConcurrentReadsForCheck_option opts).
Proof. apply apply_options_last. option_field. Qed.

Lemma checkQueryCacheEnabled_last opts s :
  checkQueryCacheEnabled (apply_options opts s)
  = from_option id (checkQueryCacheEnabled s)
      (last_option checkQueryCacheEnabled_option opts).
Proof. apply apply_options_last. option_field. Qed.


(** What the wiring of the resolvers leaves of the server as it was. *)
Lemma wire_resolvers_server init s :
  let s' := (wire_resolvers init s).1 in
  checkResolver s' = Some 0 ∧
  datastore s' = datastore s ∧
  requestDurationByQueryHistogramBuckets s' = requestDurationByQueryHistogramBuckets s ∧
  resolveNodeLimit s' = resolveNodeLimit s ∧
  resolveNodeBreadthLimit s' = resolveNodeBreadthLimit s ∧
  maxConcurrentReadsForCheck s' = maxConcurrentReadsForCheck s ∧
  checkQueryCacheEnabled s' = checkQueryCacheEnabled s ∧
  objects (wire_resolvers init s).2 !! 1
    = Some (LocalChecker (Some 0) (resolveNodeBreadthLimit s)).
Proof.
  destruct s as [lg ds en tr rnl rnb cho lod lom mrl mrc mas ex sn tsr cqe cql cqt ccl cr bk].
  unfold wire_resolvers; simpl. destruct cqe; simpl; repeat split.
Qed.

(** The outcome of [NewServerWithOpts] in terms of the server after the
    options and the wiring. *)
Lemma NewServerWithOpts_unfold cfg init lg en tr name opts :
  NewServerWithOpts cfg init lg en tr name opts =
  let w := wire_resolvers init (apply_options opts (initial_server cfg lg en tr name)) in
  match datastore w.1 with
  | None => inr "a datastore option must be provided"
  | Some ds =>
      if bool_decide (length (requestDurationByQueryHistogramBuckets w.1) = 0)
      then inr "request duration datastore count buckets must not be empty"
      else inl (set_typesystemResolver ds w.1, w.2)
  end.
Proof.
  unfold NewServerWithOpts. simpl.
  destruct (wire_resolvers init _) as [s h]. reflexivity.
Qed.

Lemma set_typesystemResolver_fields ds s :
  let s' := set_typesystemResolver ds s in
  typesystemResolver s' = Some ds ∧
  checkResolver s' = checkResolver s ∧
  datastore s' = datastore s ∧
  requestDurationByQueryHistogramBuckets s' = requestDurationByQueryHistogramBuckets s ∧
  resolveNodeLimit s' = resolveNodeLimit s ∧
  resolveNodeBreadthLimit s' = resolveNodeBreadthLimit s ∧
  maxConcurrentReadsForCheck s' = maxConcurrentReadsForCheck s ∧
  checkQueryCacheEnabled s' = checkQueryCacheEnabled s.
Proof. destruct s. simpl. repeat split. Qed.

(** ** sort.Slice *)

Lemma insert_sorted_perm x l : insert_sorted x l ≡ₚ x :: l.
Proof.
  induction l as [|y l IH]; simpl; [reflexivity |].
  destruct (x <=? y)%N; [reflexivity |].
  rewrite IH. apply perm_swap.
Qed.

Lemma sort_Slice_perm l : sort_Slice l ≡ₚ l.
Proof.
  induction l as [|x l IH]; [reflexivity |].
  unfold sort_Slice in *. simpl. rewrite insert_sorted_perm, IH. reflexivity.
Qed.

Lemma insert_sorted_Sorted x l :
  Sorted N.le l → Sorted N.le (insert_sorted x l).
Proof.
  induction l as [|y l IH]; intros Hs; simpl.
  - repeat constructor.
  - destruct (x <=? y)%N eqn:E.
    + apply N.leb_le in E. constructor; [exact Hs | constructor; exact E].
    + apply N.leb_gt in E. apply Sorted_inv in Hs as [Hs Hhd].
      constructor; [apply IH, Hs |].
      destruct l as [|z l]; simpl.
      * constructor. lia.
      * destruct (x <=? z)%N; constructor; [lia |].
        inversion Hhd; subst. assumption.
Qed.

Lemma sort_Slice_Sorted l : Sorted N.le (sort_Slice l).
Proof.
  induction l as [|x l IH]; [constructor |].
  unfold sort_Slice in *. simpl. apply insert_sorted_Sorted, IH.
Qed.

(** Without a datastore option there is no server. *)
Lemma NewServerWithOpts_fails_without_datastore cfg init lg en tr name opts :
  last_option datastore_option opts = None →
  NewServerWithOpts cfg init lg en tr name opts
  = inr "a datastore option must be provided".
Proof.
  intros Eds. rewrite NewServerWithOpts_unfold. simpl.
  destruct (wire_resolvers_server init
              (apply_options opts (initial_server cfg lg en tr name)))
    as (_ & Hds & _).
  rewrite Hds, datastore_last, Eds. reflexivity.
Qed.


(** X8.  Options are applied in order and the last one of a kind wins: in
    the server that [NewServerWithOpts] returns, the depth limit, the
    breadth limit, the read limit for Check and the cache switch are those
    of the last option of their kind, or the defaults of package
    serverconfig when there is none; and the LocalChecker is built with
    that breadth limit. *)
Theorem last_option_of_a_kind_wins
    (cfg : serverconfig) (initial_delegate : resolver_kind → ref → option ref)
    (lg en tr : handle) (name : string)
    (opts : list OpenFGAServiceV1Option) (s : Server) (h : heap) :
  NewServerWithOpts cfg initial_delegate lg en tr name opts = inl (s, h) →
  resolveNodeLimit s
    = default (DefaultResolveNodeLimit cfg)
        (last_option resolveNodeLimit_option opts) ∧
  resolveNodeBreadthLimit s
    = default (DefaultResolveNodeBreadthLimit cfg)
        (last_option resolveNodeBreadthLimit_option opts) ∧
  maxConcurrentReadsForCheck s
    = default (DefaultMaxConcurrentReadsForCheck cfg)
        (last_option maxConcurrentReadsForCheck_option opts) ∧
  checkQueryCacheEnabled s
    = default (DefaultCheckQueryCacheEnable cfg)
        (last_option checkQueryCacheEnabled_option opts) ∧
  ∃ localChecker delegate,
    objects h !! localChecker
      = Some (LocalChecker delegate (resolveNodeBreadthLimit s)).
Proof.
  rewrite NewServerWithOpts_unfold. simpl.
  set (s0 := apply_options opts (initial_server cfg lg en tr name)).
  destruct (wire_resolvers_server initial_delegate s0)
    as (_ & _ & _ & Hrnl & Hrnb & Hmrc & Hcqe & Hloc).
  destruct (datastore _) as [ds|]; [| discriminate].
  case_bool_decide; [discriminate |]. intros [= <- <-].
  destruct (set_typesystemResolver_fields ds (wire_resolvers initial_delegate s0).1)
    as (_ & _ & _ & _ & Hrnl' & Hrnb' & Hmrc' & Hcqe').
  rewrite Hrnl', Hrnb', Hmrc', Hcqe', Hrnl, Hrnb, Hmrc, Hcqe.
  assert (Hfrom : ∀ (A : Type) (d : A) (o : option A), from_option id d o = default d o)
    by (intros A d [x|]; reflexivity).
  split; [subst s0; rewrite resolveNodeLimit_last; apply Hfrom |].
  split; [subst s0; rewrite resolveNodeBreadthLimit_last; apply Hfrom |].
  split; [subst s0; rewrite maxConcurrentReadsForCheck_last; apply Hfrom |].
  split; [subst s0; rewrite checkQueryCacheEnabled_last; apply Hfrom |].
  exists 1, (Some 0). exact Hloc.
Qed.

(** X9.  The histogram buckets of a server that [NewServerWithOpts]
    returns are in ascending order and not empty: they are the buckets of
    the last [WithRequestDurationByQueryHistogramBuckets] option, sorted,
    or 50 and 200 when there is no such option. *)
Theorem histogram_buckets_are_sorted
    (cfg : serverconfig) (initial_delegate : resolver_kind → ref → option ref)
    (lg en tr : handle) (name : string)
    (opts : list OpenFGAServiceV1Option) (s : Server) (h : heap) :
  NewServerWithOpts cfg initial_delegate lg en tr name opts = inl (s, h) →
  Sorted N.le (requestDurationByQueryHistogramBuckets s) ∧
  requestDurationByQueryHistogramBuckets s ≠ [] ∧
  match last_option buckets_option opts with
  | Some buckets => requestDurationByQueryHistogramBuckets s ≡ₚ buckets
  | None => requestDurationByQueryHistogramBuckets s = [50%N; 200%N]
  end.
Proof.
  rewrite NewServerWithOpts_unfold. simpl.
  set (s0 := apply_options opts (initial_server cfg lg en tr name)).
  destruct (wire_resolvers_server initial_delegate s0) as (_ & _ & Hbk & _).
  destruct (datastore _) as [ds|]; [| discriminate].
  case_bool_decide as Hlen; [discriminate |]. intros [= <- <-].
  destruct (set_typesystemResolver_fields ds (wire_resolvers initial_delegate s0).1)
    as (_ & _ & _ & Hbk' & _).
  rewrite Hbk' in *. rewrite Hbk in *. unfold s0 in *.
  rewrite buckets_last in *. simpl in *.
  destruct (last_option buckets_option opts) as [v|]; simpl in *.
  - split; [apply sort_Slice_Sorted |]. split; [| apply sort_Slice_perm].
    intros Hnil. rewrite Hnil in Hlen. done.
  - split; [repeat constructor; lia |]. split; done.
Qed.

(** ** The constructed server at work *)

(** The fields of the server that [NewServerWithOpts] returns. *)
Lemma NewServerWithOpts_fields cfg init lg en tr name opts s h :
  NewServerWithOpts cfg init lg en tr name opts = inl (s, h) →
  let s0 := apply_options opts (initial_server cfg lg en tr name) in
  checkResolver s = Some 0 ∧
  datastore s = datastore s0 ∧
  maxConcurrentReadsForCheck s = maxConcurrentReadsForCheck s0.
Proof.
  rewrite NewServerWithOpts_unfold. simpl.
  set (s0 := apply_options opts (initial_server cfg lg en tr name)).
  destruct (wire_resolvers_server init s0) as (Hcr & Hds & _ & _ & _ & Hmrc & _).
  intros Hnew.
  destruct (datastore (wire_resolvers init s0).1) as [ds|] eqn:Ew;
    [| discriminate Hnew].
  case_bool_decide; [discriminate Hnew |]. injection Hnew as <- <-.
  destruct (set_typesystemResolver_fields ds (wire_resolvers init s0).1)
    as (_ & Hcr' & Hds' & _ & _ & _ & Hmrc' & _).
  repeat split; congruence.
Qed.

(** X10.  A server that [NewServerWithOpts] returns has its check resolver
    set: [Server.Check] never calls through a nil resolver, whatever the
    request and the collaborators, and the list-objects handlers hand the
    same resolver to their query. *)
Theorem constructed_server_has_its_resolver
    (cfg : serverconfig) (initial_delegate : resolver_kind → ref → option ref)
    (lg en tr : handle) (name : string)
    (opts : list OpenFGAServiceV1Option) (s : Server) (h : heap)
    (env : Collaborators) (req : CheckRequest) :
  NewServerWithOpts cfg initial_delegate lg en tr name opts = inl (s, h) →
  Server_Check s env req ≠ NilDereference ∧
  is_Some (checkResolver s) ∧
  q_checkResolver (list_objects_query s) = checkResolver s.
Proof.
  intros Hnew.
  destruct (NewServerWithOpts_fields _ _ _ _ _ _ _ _ _ Hnew) as (Hcr & _).
  split; [| split; [rewrite Hcr; eauto | reflexivity]].
  unfold Server_Check. rewrite Hcr.
  destruct (if RequestIsValidatedFromContext env then _ else _); [discriminate |].
  destruct (resolveTypesystem _ _ _) as [ts|]; [| discriminate].
  destruct (ValidateUserObjectRelation _ _ _); [discriminate |].
  destruct (validate_contextual _ _ _); [discriminate |].
  destruct (ResolveCheck _ _ _ _) as [resp | err]; [discriminate |].
  destruct (_ || _); [discriminate |].
  destruct (errors_Is err ErrEvaluationFailed); discriminate.
Qed.

(** The loop over the contextual tuples stops at the first tuple that
    does not validate. *)
Lemma validate_contextual_first env typesys valid tk rest err :
  Forall (λ t, ValidateTuple env typesys t = None) valid →
  ValidateTuple env typesys tk = Some err →
  validate_contextual env typesys (valid ++ tk :: rest) = Some err.
Proof.
  intros Hvalid Htk. induction Hvalid as [|t valid Ht _ IH]; simpl.
  - rewrite Htk. reflexivity.
  - rewrite Ht. exact IH.
Qed.

Lemma validate_contextual_None env typesys tks :
  validate_contextual env typesys tks = None ↔
  Forall (λ t, ValidateTuple env typesys t = None) tks.
Proof.
  induction tks as [|t tks IH]; simpl.
  - split; [constructor | reflexivity].
  - destruct (ValidateTuple env typesys t) eqn:E.
    + split; [discriminate |]. intros H. inversion H; subst. congruence.
    + rewrite IH. split; [intros H; constructor; assumption |].
      intros H. inversion H; assumption.
Qed.

(** X11.  [Server.Check] validates the contextual tuples in the order of
    the request and answers with the error of the first one that does not
    validate, [HandleTupleValidateError(err)]: later tuples are not looked
    at and the resolver has no say in the answer. *)
Theorem Check_rejects_first_invalid_contextual_tuple
    (s : Server) (env : Collaborators) (req : CheckRequest) (typesys : TypeSystem)
    (valid rest : list TupleKey) (tk : TupleKey) (err : goerror) :
  (if RequestIsValidatedFromContext env then None else Validate env req) = None →
  resolveTypesystem env (req_StoreId req) (req_AuthorizationModelId req) = inl typesys →
  ValidateUserObjectRelation env typesys
    (ConvertCheckRequestTupleKeyToTupleKey (req_TupleKey req)) = None →
  req_ContextualTuples req = valid ++ tk :: rest →
  Forall (λ t, ValidateTuple env typesys t = None) valid →
  ValidateTuple env typesys tk = Some err →
  Server_Check s env req = Err (HandleTupleValidateError err) ∧
  ∀ s' resolve,
    Server_Check s'
      {| RequestIsValidatedFromContext := RequestIsValidatedFromContext env;
         Validate := Validate env;
         typesystemResolverFunc := typesystemResolverFunc env;
         ValidateUserObjectRelation := ValidateUserObjectRelation env;
         ValidateTuple := ValidateTuple env;
         ResolveCheck := resolve |} req
    = Err (HandleTupleValidateError err).
Proof.
  intros Hval Hts Huor Htks Hvalid Htk.
  pose proof (validate_contextual_first env typesys valid tk rest err Hvalid Htk) as Hloop.
  split.
  - unfold Server_Check. rewrite Hval, Hts, Huor, Htks, Hloop. reflexivity.
  - intros s' resolve. unfold Server_Check, resolveTypesystem in *. simpl.
    rewrite Hval. destruct (typesystemResolverFunc env _ _) as [ts | e] eqn:E.
    + injection Hts as ->. rewrite Huor, Htks.
      rewrite (validate_contextual_first _ typesys valid tk rest err); [reflexivity | | ].
      * exact Hvalid.
      * exact Htk.
    + destruct (errors_Is e ErrModelNotFound); [case_bool_decide; discriminate Hts |].
      destruct (errors_Is e ErrInvalidModel); discriminate Hts.
Qed.

(** X12.  A decision of [Server.Check] is the resolver's: whenever the
    handler returns a response, the request had passed validation (or was
    validated before), the typesystem had resolved, the tuple key and
    every contextual tuple had validated against it, the resolver had
    returned a response without error, and the handler's [Allowed] is the
    resolver's. *)
Theorem Check_decision_is_the_resolvers
    (s : Server) (env : Collaborators) (req : CheckRequest) (r : CheckResponse) :
  Server_Check s env req = Ok r →
  ∃ typesys resp,
    resolution_returns s env req (inl resp) ∧
    resp_Allowed r = Allowed resp ∧
    resolveTypesystem env (req_StoreId req) (req_AuthorizationModelId req)
      = inl typesys ∧
    Forall (λ t, ValidateTuple env typesys t = None) (req_ContextualTuples req).
Proof.
  unfold Server_Check, resolution_returns.
  destruct (if RequestIsValidatedFromContext env then _ else _) eqn:Hval;
    [discriminate |].
  destruct (resolveTypesystem _ _ _) as [ts|] eqn:Hts; [| discriminate].
  destruct (ValidateUserObjectRelation _ _ _) eqn:Huor; [discriminate |].
  destruct (validate_contextual _ _ _) eqn:Hctx; [discriminate |].
  destruct (checkResolver s) as [resolver|] eqn:Hcr; [| discriminate].
  destruct (ResolveCheck _ _ _ _) as [resp | err] eqn:Hrc.
  - intros [= <-]. exists ts, resp. split.
    + exists ts, resolver. auto 10.
    + split; [reflexivity |]. split; [reflexivity |].
      apply validate_contextual_None, Hctx.
  - destruct (_ || _); [discriminate |].
    destruct (errors_Is err ErrEvaluationFailed); discriminate.
Qed.

(** X13.  The reader that [Server.Check] of a constructed server puts
    into the context of a resolution reads the server's datastore under
    the contextual tuples of that request, and has the width of the last
    [WithMaxConcurrentReadsForCheck] option, or of the default: however the
    resolution uses it, no more wrapped reads than that run at once. *)
Theorem Check_reads_are_bounded_by_the_option
    (cfg : serverconfig) (initial_delegate : resolver_kind → ref → option ref)
    (lg en tr : handle) (name : string)
    (opts : list OpenFGAServiceV1Option) (s : Server) (h : heap)
    (typesys : TypeSystem) (req : CheckRequest)
    (evs : list event) (st : state) :
  NewServerWithOpts cfg initial_delegate lg en tr name opts = inl (s, h) →
  run (NewBoundedConcurrencyTupleReader
         (cc_reader_concurrency (check_resolve_context s typesys req))) evs = Some st →
  count_pc in_wrapped (goroutines st)
    ≤ N.to_nat (default (DefaultMaxConcurrentReadsForCheck cfg)
                  (last_option maxConcurrentReadsForCheck_option opts)) ∧
  cc_reader_datastore (check_resolve_context s typesys req)
    = last_option datastore_option opts ∧
  cc_reader_contextual (check_resolve_context s typesys req)
    = req_ContextualTuples req.
Proof.
  intros Hnew Hrun.
  destruct (NewServerWithOpts_fields _ _ _ _ _ _ _ _ _ Hnew) as (_ & Hds & Hmrc).
  simpl in *. rewrite Hmrc in Hrun.
  rewrite maxConcurrentReadsForCheck_last in Hrun. simpl in Hrun.
  destruct (slots_inv_run _ _ _ Hrun) as [Hcount Hcap]. simpl in Hcap.
  assert (Hle : count_pc in_wrapped (goroutines st)
                ≤ count_pc holds_slot (goroutines st))
    by (apply count_pc_le; intros [] ?; done).
  split.
  - destruct (last_option maxConcurrentReadsForCheck_option opts); simpl in *; lia.
  - split; [| reflexivity]. rewrite Hds, datastore_last. simpl.
    destruct (last_option datastore_option opts) as [ds|] eqn:Eds; [reflexivity |].
    pose proof (NewServerWithOpts_fails_without_datastore cfg initial_delegate
                  lg en tr name opts Eds) as Hfail.
    rewrite Hfail in Hnew. discriminate Hnew.
Qed.

(** X14.  The two list-objects handlers treat a failed query differently.
    [ListObjects] answers a failure that is a condition-evaluation failure
    with [ValidationError(err)] and hands on every other error as it is;
    [StreamedListObjects] hands on every error as it is, a condition
    failure too.  Neither turns a depth error into
    [AuthorizationModelResolutionTooComplex], as [Check] does. *)
Theorem list_objects_handlers_map_errors_differently
    (s : Server) (env : Collaborators) (q : ListObjectsCollaborators)
    (req : ListObjectsRequest) (typesys : TypeSystem) (err : goerror) :
  query_runs s env q req typesys →
  Execute q (list_objects_query s) typesys
    (with_model_id (GetAuthorizationModelID typesys) req) = inr err →
  ExecuteStreamed q (list_objects_query s) typesys
    (with_model_id (GetAuthorizationModelID typesys) req) = inr err →
  Server_StreamedListObjects s env q req = Fails (Unmapped err) ∧
  (errors_Is err ErrEvaluationFailed = true →
     Server_ListObjects s env q req = Fails (ServerError (ValidationError err))) ∧
  (errors_Is err ErrEvaluationFailed = false →
     Server_ListObjects s env q req = Fails (Unmapped err)) ∧
  Server_ListObjects s env q req
    ≠ Fails (ServerError AuthorizationModelResolutionTooComplex).
Proof.
  intros (Hval & Hts & Hnew) Hex Hst.
  unfold Server_StreamedListObjects, Server_ListObjects.
  rewrite Hval, Hts, Hnew, Hex, Hst.
  split; [reflexivity |].
  destruct (errors_Is err ErrEvaluationFailed);
    repeat split; try reflexivity; try discriminate.
Qed.

(* ===================================================================== *)
(** * Properties of the logger *)
(* ===================================================================== *)

Lemma logger_options_snoc options opt :
  logger_options (options ++ [opt]) = apply_logger_option opt (logger_options options).
Proof. unfold logger_options. rewrite foldl_app. reflexivity. Qed.

Lemma last_omap_snoc {A B} (pick : A → option B) l x :
  last (omap pick (l ++ [x])) =
  match pick x with
  | Some v => Some v
  | None => last (omap pick l)
  end.
Proof.
  rewrite omap_app. simpl.
  destruct (pick x); [apply last_snoc | rewrite app_nil_r; reflexivity].
Qed.

(** The options of the logger: the last option of a kind wins, the
    defaults are info, text and ISO8601. *)
Lemma logger_options_last options :
  Level (logger_options options) = default "info" (last (omap level_option options)) ∧
  Format (logger_options options) = default "text" (last (omap format_option options)) ∧
  TimestampFormat (logger_options options)
    = default "ISO8601" (last (omap timestamp_option options)).
Proof.
  induction options as [|opt options (IHl & IHf & IHt)] using rev_ind;
    [repeat split |].
  rewrite logger_options_snoc, !last_omap_snoc.
  destruct opt; simpl; auto.
Qed.

(** X15.  When the last [WithLevel] option asks for the level none,
    [NewLogger] returns the no-op logger and no error, whatever the other
    options are and whatever zap would make of them: the level is not
    parsed and nothing is built.  So [MustNewLogger] with level none never
    panics. *)
Theorem NewLogger_level_none_is_noop
    (zap : Zap) (options : list OptionLogger) :
  last (omap level_option options) = Some "none" →
  NewLogger zap options = inl zap_NewNop ∧
  ∀ logFormat logTimestampFormat,
    MustNewLogger zap logFormat "none" logTimestampFormat = inl zap_NewNop.
Proof.
  intros Hlast. split.
  - unfold NewLogger. destruct (logger_options_last options) as (Hl & _).
    rewrite Hl, Hlast. reflexivity.
  - intros f t. reflexivity.
Qed.

(** X16.  The logger that [NewLogger] builds.  Stack traces are off, the
    time key is timestamp and the caller key is empty, in every format.
    With format text the encoding is console with capital coloured levels
    and ISO8601 times, whatever the timestamp format asked for.  With any
    other format the encoding, caller and level settings of zap's
    production configuration are kept, and times are ISO8601 when the
    timestamp format is ISO8601 and epoch otherwise.  The build version
    and commit are added as fields exactly for format json: a format that
    is neither text nor json gives the production encoding without
    them. *)
Theorem NewLogger_configuration
    (zap : Zap) (options : list OptionLogger)
    (cfg : zap_Config) (fields : list (string * string)) :
  NewLogger zap options = inl (zap_Built cfg fields) →
  let format := default "text" (last (omap format_option options)) in
  let timestampFormat := default "ISO8601" (last (omap timestamp_option options)) in
  cfg_DisableStacktrace cfg = true ∧
  cfg_TimeKey cfg = "timestamp" ∧
  cfg_CallerKey cfg = "" ∧
  ParseAtomicLevel zap (default "info" (last (omap level_option options)))
    = inl (cfg_Level cfg) ∧
  (format = "text" →
     cfg_Encoding cfg = "console" ∧ cfg_DisableCaller cfg = true ∧
     cfg_EncodeLevel cfg = CapitalColorLevelEncoder ∧
     cfg_EncodeTime cfg = ISO8601TimeEncoder ∧
     fields = []) ∧
  (format ≠ "text" →
     cfg_Encoding cfg = cfg_Encoding (NewProductionConfig zap) ∧
     cfg_DisableCaller cfg = cfg_DisableCaller (NewProductionConfig zap) ∧
     cfg_EncodeLevel cfg = cfg_EncodeLevel (NewProductionConfig zap) ∧
     (timestampFormat = "ISO8601" → cfg_EncodeTime cfg = ISO8601TimeEncoder) ∧
     (timestampFormat ≠ "ISO8601" → cfg_EncodeTime cfg = EpochTimeEncoder)) ∧
  (format = "json" →
     fields = [("build.version", build_Version zap); ("build.commit", build_Commit zap)]) ∧
  (format ≠ "json" → fields = []).
Proof.
  unfold NewLogger. destruct (logger_options_last options) as (Hl & Hf & Ht).
  set (lo := logger_options options) in *.
  case_bool_decide as Hnone; [discriminate |].
  rewrite <- Hl, <- Hf, <- Ht.
  destruct (ParseAtomicLevel zap (Level lo)) as [level | perr]; [| discriminate].
  destruct (Build zap _); [discriminate |].
  unfold logger_config.
  destruct (decide (Format lo = "text")) as [Htext | Htext].
  - rewrite Htext. simpl. intros [= <- <-]. simpl.
    repeat split; try done.
  - rewrite (bool_decide_eq_false_2 _ Htext).
    case_bool_decide as Hjson; simpl; intros [= <- <-]; simpl;
      repeat split; try done; intros Hts;
      first [ by rewrite bool_decide_eq_true_2
            | by rewrite bool_decide_eq_false_2 ].
Qed.

(** X17.  [NewLogger] fails in two cases only, and never for the level
    none: the level does not parse, and then the error wraps the parser's
    error (so [errors.Is] sees through it); or the level parses and zap
    refuses to build the configuration, and then the error is zap's.
    [MustNewLogger] panics with that error in exactly those cases. *)
Theorem NewLogger_errors
    (zap : Zap) (options : list OptionLogger) (err : goerror) :
  NewLogger zap options = inr err →
  let level := default "info" (last (omap level_option options)) in
  level ≠ "none" ∧
  ((∃ perr, ParseAtomicLevel zap level = inr perr ∧
            err = ErrWrap (String.append "unknown log level: " level) perr ∧
            ∀ target, errors_Is err target = errors_Is perr target) ∨
   (∃ lv, ParseAtomicLevel zap level = inl lv ∧
          Build zap (logger_config zap lv (logger_options options)) = Some err)).
Proof.
  unfold NewLogger. destruct (logger_options_last options) as (Hl & _).
  rewrite <- Hl.
  case_bool_decide as Hnone; [discriminate |].
  destruct (ParseAtomicLevel zap _) as [lv | perr] eqn:Hparse.
  - destruct (Build zap _) as [berr|] eqn:Hbuild.
    + intros [= <-]. split; [exact Hnone |]. right. exists lv. auto.
    + case_bool_decide; discriminate.
  - intros [= <-]. split; [exact Hnone |]. left. exists perr. auto.
Qed.

(* ===================================================================== *)
(** * The decorator does not get stuck *)
(* ===================================================================== *)


(* ===================================================================== *)
(** * The further statements at work *)
(* ===================================================================== *)

Lemma no_slot_is_leaked_witness :
  limiter (Example.state_of Scenario.reader Example.all_returned) = 0 ∧
  count_pc holds_slot
    (goroutines (Example.state_of Scenario.reader Example.all_returned)) = 0.
Proof.
  apply (no_slot_is_leaked Scenario.reader Example.all_returned).
  - reflexivity.
  - intros [|[|[|i]]] g Hi; vm_compute in Hi; inversion Hi; reflexivity.
Defined.

Lemma wrapped_reader_called_once_witness :
  calls_of 0 (trace (Scenario.state_after Scenario.one_reading_one_blocked))
    = [CallWrapped Read] ∧
  ∃ now,
    effects_of 0 (trace (Scenario.state_after Scenario.one_reading_one_blocked))
    = recording (Scenario.goroutine_after Scenario.one_reading_one_blocked 0) now
      ++ [CallWrapped Read].
Proof.
  exact (wrapped_reader_called_once Scenario.reader
           Scenario.one_reading_one_blocked
           (Scenario.state_after Scenario.one_reading_one_blocked) 0
           (Scenario.goroutine_after Scenario.one_reading_one_blocked 0)
           eq_refl eq_refl).
Defined.

Lemma wrapped_result_is_passed_through_witness :
  goroutines (Scenario.state_after Scenario.read_at_release) !! 0
  = Some (set_pc (AtRelease (iterator Scenario.two_tuples None))
            (Example.goroutine_of Scenario.reader Example.read_in_wrapped 0)).
Proof.
  exact (proj1 (proj2 (proj2
    (wrapped_result_is_passed_through Scenario.reader
       (Example.state_of Scenario.reader Example.read_in_wrapped)
       (Scenario.state_after Scenario.read_at_release) 0
       (Example.goroutine_of Scenario.reader Example.read_in_wrapped 0)
       (iterator Scenario.two_tuples None) eq_refl eq_refl)))).
Defined.

Lemma zero_width_admits_nothing_witness :
  limiter (Example.state_of (NewBoundedConcurrencyTupleReader 0)
             Example.zero_width_run) = 0 ∧
  ∀ i m, CallWrapped m ∉
    effects_of i (trace (Example.state_of (NewBoundedConcurrencyTupleReader 0)
                           Example.zero_width_run)).
Proof.
  destruct (zero_width_admits_nothing Example.zero_width_run
              (Example.state_of (NewBoundedConcurrencyTupleReader 0)
                 Example.zero_width_run) eq_refl) as (H1 & H2 & _).
  exact (conj H1 H2).
Defined.

Lemma admitted_call_is_not_aborted_witness :
  ∃ p,
    goroutines (Example.state_of Scenario.reader
                  (Example.read_admitted ++ Example.cancelled_after_admission)) !! 0
    = Some (set_pc p (Example.goroutine_of Scenario.reader Example.read_admitted 0)) ∧
    p ≠ Parked ∧ (∀ e, p ≠ Aborted e) ∧ (∀ e, p ≠ AfterSelect (Some e)) ∧
    (holds_slot p = true ∨ ∃ ret, p = Returned ret).
Proof.
  exact (admitted_call_is_not_aborted Scenario.reader
           (Example.state_of Scenario.reader Example.read_admitted) 0
           (Example.goroutine_of Scenario.reader Example.read_admitted 0)
           Example.cancelled_after_admission
           (Example.state_of Scenario.reader
              (Example.read_admitted ++ Example.cancelled_after_admission))
           eq_refl eq_refl eq_refl).
Defined.

Lemma recorded_wait_is_whole_milliseconds_witness :
  ∃ ms,
    recording Example.waiting_goroutine 3999999 =
      [ Observe "openfga.v1.OpenFGAService" "Check" ms;
        SetAttributes 0 "time_waiting" ms ] ∧
    (0 ≤ ms)%Z ∧
    (ms * 1000000 ≤ 3999999 - 1000000 < (ms + 1) * 1000000)%Z ∧
    ((3999999 - 1000000 < 1000000)%Z → ms = 0%Z).
Proof.
  apply (recorded_wait_is_whole_milliseconds Example.waiting_goroutine 3999999).
  simpl. lia.
Defined.

Lemma last_option_of_a_kind_wins_witness :
  resolveNodeLimit (Scenario.server_of (Scenario.new_server Example.opts_limits)) = 40%N ∧
  maxConcurrentReadsForCheck
    (Scenario.server_of (Scenario.new_server Example.opts_limits)) = 3%N.
Proof.
  destruct (Scenario.new_server Example.opts_limits) as [[s h]|msg] eqn:E;
    [| discriminate E].
  destruct (last_option_of_a_kind_wins _ _ _ _ _ _ _ _ _ E) as (H1 & _ & H3 & _).
  simpl. rewrite H1, H3. split; reflexivity.
Defined.

Lemma histogram_buckets_are_sorted_witness :
  Sorted N.le (requestDurationByQueryHistogramBuckets
                 (Scenario.server_of (Scenario.new_server Example.opts_limits))) ∧
  requestDurationByQueryHistogramBuckets
    (Scenario.server_of (Scenario.new_server Example.opts_limits))
    ≡ₚ [200%N; 50%N; 100%N].
Proof.
  destruct (Scenario.new_server Example.opts_limits) as [[s h]|msg] eqn:E;
    [| discriminate E].
  destruct (histogram_buckets_are_sorted _ _ _ _ _ _ _ _ _ E) as (H1 & _ & H3).
  simpl. split; [exact H1 | exact H3].
Defined.

Lemma constructed_server_has_its_resolver_witness :
  Server_Check (Scenario.server_of (Scenario.new_server Example.opts_limits))
    Example.strict_env Example.request_with_tuples ≠ NilDereference.
Proof.
  destruct (Scenario.new_server Example.opts_limits) as [[s h]|msg] eqn:E;
    [| discriminate E].
  exact (proj1 (constructed_server_has_its_resolver _ _ _ _ _ _ _ _ _
                  Example.strict_env Example.request_with_tuples E)).
Defined.

Lemma Check_rejects_first_invalid_contextual_tuple_witness :
  Server_Check Scenario.server Example.strict_env Example.request_with_tuples
  = Err (HandleTupleValidateError (ErrNew (ErrOther "relation not found"))).
Proof.
  refine (proj1 (Check_rejects_first_invalid_contextual_tuple
                   Scenario.server Example.strict_env Example.request_with_tuples
                   Scenario.model [Scenario.parent_tuple] [Example.worse_tuple]
                   Example.bad_tuple (ErrNew (ErrOther "relation not found"))
                   eq_refl eq_refl eq_refl eq_refl _ eq_refl)).
  repeat constructor.
Defined.

Lemma Check_decision_is_the_resolvers_witness :
  ∃ typesys resp,
    resolution_returns Scenario.server
      (Scenario.env (inl Scenario.model) (inl Scenario.cycle_response))
      Scenario.request (inl resp) ∧
    false = Allowed resp ∧
    resolveTypesystem
      (Scenario.env (inl Scenario.model) (inl Scenario.cycle_response))
      (req_StoreId Scenario.request) (req_AuthorizationModelId Scenario.request)
      = inl typesys ∧
    Forall (λ t, ValidateTuple
                   (Scenario.env (inl Scenario.model) (inl Scenario.cycle_response))
                   typesys t = None)
           (req_ContextualTuples Scenario.request).
Proof.
  exact (Check_decision_is_the_resolvers Scenario.server
           (Scenario.env (inl Scenario.model) (inl Scenario.cycle_response))
           Scenario.request {| resp_Allowed := false |} eq_refl).
Defined.

Lemma Check_reads_are_bounded_by_the_option_witness :
  count_pc in_wrapped
    (goroutines (Example.state_of (NewBoundedConcurrencyTupleReader 3)
                   Example.read_in_wrapped)) ≤ 3.
Proof.
  destruct (Scenario.new_server Example.opts_limits) as [[s h]|msg] eqn:E;
    [| discriminate E].
  refine (proj1 (Check_reads_are_bounded_by_the_option _ _ _ _ _ _ _ s h
                   Scenario.model Scenario.request
                   Example.read_in_wrapped _ E _)).
  vm_compute in E. injection E as <- _. vm_compute. reflexivity.
Defined.

Lemma list_objects_handlers_map_errors_differently_witness :
  Server_StreamedListObjects Scenario.server
    (Scenario.env (inl Scenario.model) (inl Scenario.cycle_response))
    Example.failing_query Example.list_request
    = Fails (Unmapped Scenario.condition_failure) ∧
  Server_ListObjects Scenario.server
    (Scenario.env (inl Scenario.model) (inl Scenario.cycle_response))
    Example.failing_query Example.list_request
    = Fails (ServerError (ValidationError Scenario.condition_failure)).
Proof.
  destruct (list_objects_handlers_map_errors_differently Scenario.server
              (Scenario.env (inl Scenario.model) (inl Scenario.cycle_response))
              Example.failing_query Example.list_request Scenario.model
              Scenario.condition_failure) as (H1 & H2 & _).
  - repeat split.
  - reflexivity.
  - reflexivity.
  - split; [exact H1 | exact (H2 eq_refl)].
Defined.

Lemma NewLogger_level_none_is_noop_witness :
  NewLogger Example.zap [WithLevel "debug"; WithFormat "json"; WithLevel "none"]
  = inl zap_NewNop.
Proof.
  exact (proj1 (NewLogger_level_none_is_noop Example.zap
                  [WithLevel "debug"; WithFormat "json"; WithLevel "none"] eq_refl)).
Defined.

Lemma NewLogger_configuration_witness :
  ∃ cfg,
    NewLogger Example.zap [WithFormat "xml"; WithTimestampFormat "Unix"]
      = inl (zap_Built cfg []) ∧
    cfg_Encoding cfg = "json" ∧
    cfg_EncodeTime cfg = EpochTimeEncoder.
Proof.
  destruct (NewLogger Example.zap [WithFormat "xml"; WithTimestampFormat "Unix"])
    as [[|cfg fields]|err] eqn:E; try discriminate E.
  destruct (NewLogger_configuration _ _ _ _ E)
    as (_ & _ & _ & _ & _ & Hother & _ & Hnojson).
  destruct (Hother ltac:(discriminate)) as (Henc & _ & _ & _ & Hepoch).
  rewrite (Hnojson ltac:(discriminate)).
  exists cfg. split; [reflexivity |]. split; [exact Henc |].
  apply Hepoch. discriminate.
Defined.

Lemma NewLogger_errors_witness :
  ∃ err,
    NewLogger Example.zap [WithLevel "verbose"] = inr err ∧
    errors_Is err (ErrOther "unrecognized level") = true.
Proof.
  destruct (NewLogger Example.zap [WithLevel "verbose"]) as [l|err] eqn:E;
    [discriminate E |].
  exists err. split; [reflexivity |].
  destruct (NewLogger_errors _ _ _ E) as (_ & [(perr & Hp & _ & His) | (lv & Hp & _)]);
    [| discriminate Hp].
  rewrite His. injection Hp as <-. reflexivity.
Defined.

